(** * The lbadd B-tree storage engine (btree.go), embedded in Rocq

    The Go program keeps its tree in heap-allocated [node] objects that point
    at one another ([parent], [children]) and are mutated in place.  The
    embedding keeps that shape: node objects live in a store addressed by
    index, pointers are addresses ([None] is Go's [nil]), every method
    threads the store explicitly, and a run-time panic is a result of its
    own.  Recursive methods take a fuel argument because nothing in the code
    bounds the descent on an arbitrary store. *)

From Stdlib Require Import ZArith Lia String.
From stdpp Require Import base option list.

Open Scope Z_scope.

(** ** Results of running Go code *)

(** The run-time panics the code can raise. *)
Inductive panic : Type :=
  | IndexOutOfRange        (* s[i] with i outside [0, len s) *)
  | SliceBoundsOutOfRange  (* s[lo:hi] with lo > hi or hi > cap s *)
  | NilDereference         (* field access through a nil pointer *)
  | Explicit (msg : string). (* panic("...") *)

Inductive result (A : Type) : Type :=
  | Returned (a : A)
  | Panicked (p : panic)
  | OutOfFuel.

Arguments Returned {A} a.
Arguments Panicked {A} p.
Arguments OutOfFuel {A}.

#[global] Instance result_ret : MRet result := fun _ a => Returned a.
#[global] Instance result_bind : MBind result := fun _ _ f m =>
  match m with
  | Returned a => f a
  | Panicked p => Panicked p
  | OutOfFuel => OutOfFuel
  end.

(** ** Machine integers *)

(** Go's [int] is 64 bits wide here; [wrap64] is the two's complement
    wrap-around of [b.size++] and [b.size--].  Lengths and indices stay far
    below 2^62 (a slice of pointers cannot be longer), so index arithmetic is
    written without it. *)
Definition wrap64 (z : Z) : Z := (z + 2 ^ 63) mod 2 ^ 64 - 2 ^ 63.

(** [float64(x)] for an [int] x: the nearest double, ties to even.  Doubles
    carry 53 significant bits, so integers below 2^53 in magnitude are exact
    and larger ones are rounded to a multiple of a power of two.  The value
    is returned as the integer it denotes. *)
Definition float64_of_int (x : Z) : Z :=
  let a := Z.abs x in
  if a <? 2 ^ 53 then x
  else
    let e := Z.log2 a - 52 in
    let q := a / 2 ^ e in
    let r := a mod 2 ^ e in
    let half := 2 ^ (e - 1) in
    let q' := if r <? half then q
              else if half <? r then q + 1
              else if Z.even q then q else q + 1 in
    Z.sgn x * (q' * 2 ^ e).

(** [int(math.Ceil(float64(order)/2.0))].  Halving a double is exact, and the
    ceiling of m/2 for an integer m is the floor of (m+1)/2. *)
Definition ceil_half (order : Z) : Z := (float64_of_int order + 1) / 2.

(** ** Data model *)

Definition key : Type := Z.
Abbreviation addr := nat (only parsing).

Section Model.

Context {V : Type}.

(** [value] is [interface{}]: [None] is the nil interface. *)
Definition value : Type := option V.

Record entry : Type := Entry { e_key : key; e_value : value }.

Record node : Type := Node {
  parent : option addr;
  entries : list entry;
  children : list addr
}.

(** The [btree] struct together with the node objects it can reach or has
    left behind.  Allocation appends to [heap]; nothing is ever freed. *)
Record state : Type := State {
  heap : list node;
  root : option addr;
  size : Z;
  order : Z
}.

Definition set_heap (st : state) (h : list node) : state :=
  State h (root st) (size st) (order st).
Definition set_root (st : state) (r : option addr) : state :=
  State (heap st) r (size st) (order st).
Definition set_size (st : state) (s : Z) : state :=
  State (heap st) (root st) s (order st).

Definition set_entries (n : node) (es : list entry) : node :=
  Node (parent n) es (children n).
Definition set_children (n : node) (cs : list addr) : node :=
  Node (parent n) (entries n) cs.

(** [len(s)] *)
Definition len {A : Type} (l : list A) : Z := Z.of_nat (length l).

(** [s[i]], bounds-checked as Go does. *)
Definition index {A : Type} (l : list A) (i : Z) : result A :=
  if i <? 0 then Panicked IndexOutOfRange
  else match l !! Z.to_nat i with
       | Some x => Returned x
       | None => Panicked IndexOutOfRange
       end.

(** Reading through a non-nil node pointer.  An address outside the store
    does not arise in Go; the model reports it like a nil pointer. *)
Definition load (h : list node) (a : addr) : result node :=
  match h !! a with
  | Some n => Returned n
  | None => Panicked NilDereference
  end.

(** Reading through a pointer that may be nil. *)
Definition deref (h : list node) (p : option addr) : result node :=
  match p with
  | Some a => load h a
  | None => Panicked NilDereference
  end.

(** Writing the object behind a node pointer. *)
Definition store (st : state) (a : addr) (n : node) : state :=
  set_heap st (<[a := n]> (heap st)).

(** ** Constructors *)

Definition defaultOrder : Z := 3.

Definition newBtree : state := State [] None 0 defaultOrder.

Definition newBtreeOrder (order : Z) : state := State [] None 0 order.

(** ** search *)

(** The [for low <= high] loop of [search]; [÷] is Go's truncating
    division. *)
Fixpoint search_loop (fuel : nat) (es : list entry) (k : key) (low high : Z)
  : result (Z * bool) :=
  match fuel with
  | O => OutOfFuel
  | S fuel' =>
    if low <=? high then
      let mid := (high + low) ÷ 2 in
      e ← index es mid;
      if e_key e <? k then search_loop fuel' es k (mid + 1) high
      else if k <? e_key e then search_loop fuel' es k low (mid - 1)
      else Returned (mid + 1, true)
    else Returned (low, false)
  end.

(** The interval halves on every round, so [length es] rounds and the final
    test always fit ([search_returns] below). *)
Definition search (es : list entry) (k : key) : result (Z * bool) :=
  search_loop (S (length es)) es k 0 (len es - 1).

(** The order [search] relies on: keys strictly ascending. *)
Fixpoint ascending (ks : list key) : bool :=
  match ks with
  | a :: (b :: _) as rest => (a <? b) && ascending rest
  | _ => true
  end.

(** ** Node predicates *)

Definition isLeaf (n : node) : bool := len (children n) =? 0.

Definition isFull (n : node) (order : Z) : bool := order <=? len (entries n).

Definition canSteal (n : node) (order : Z) : bool :=
  ceil_half order <? len (entries n).

Definition isUnderflowed (n : node) (order : Z) : bool :=
  len (entries n) <? ceil_half order.

(** ** split *)

(** [n.split()].  The receiver is left as it is; three objects are
    allocated (left, right and the returned node).  The slice built by
    [append(n.children, left, right)] is given by its elements, which is what
    the returned node sees on return.  This is exact when [n.children] is
    empty, which is every split the code performs for an order of at least
    2, where only leaves fill up.  When [n.children] has spare capacity (a
    node with children split a second time, possible at an order of 1 or
    less) Go appends in place: the new slice shares storage with
    [n.children] and with the slice an earlier split of [n] returned, whose
    last two children are thereby rewritten.  That sharing is not modelled:
    what is proved below about the children of existing nodes is stated for
    leaf receivers, or for an order of at least 2. *)
Definition split (st : state) (n : addr) : result (state * addr) :=
  nd ← load (heap st) n;
  if len (entries nd) =? 0 then Returned (st, n)
  else
    let mid := len (entries nd) ÷ 2 in
    let left := Node (Some n) (take (Z.to_nat mid) (entries nd)) [] in
    let right := Node (Some n) (drop (Z.to_nat mid) (entries nd)) [] in
    m ← index (entries nd) mid;
    let l := length (heap st) in
    let r := S l in
    let new := Node (parent nd) [Entry (e_key m) None] (children nd ++ [l; r]) in
    Returned (set_heap st (heap st ++ [left; right; new]), S r).

(** ** get *)

Fixpoint getNode (fuel : nat) (st : state) (node : addr) (k : key)
  : result (option entry * bool) :=
  match fuel with
  | O => OutOfFuel
  | S fuel' =>
    nd ← load (heap st) node;
    '(i, found) ← search (entries nd) k;
    if found : bool then
      e ← index (entries nd) i;
      Returned (Some e, true)
    else if len (children nd) <? i then Returned (None, false)
    else
      c ← index (children nd) i;
      getNode fuel' st c k
  end.

Definition get (fuel : nat) (st : state) (k : key) : result (option entry * bool) :=
  match root st with
  | None => Returned (None, false)
  | Some r =>
    nd ← load (heap st) r;
    if len (entries nd) =? 0 then Returned (None, false)
    else getNode fuel st r k
  end.

(** ** insert *)

(** [node.entries = append(node.entries, nil);
     copy(node.entries[idx+1:], node.entries[idx:]);
     node.entries[idx] = entry]: the slice grows by one and the entry lands
    at [idx]; the slice expressions need 0 <= idx <= len. *)
Definition insert_at (es : list entry) (idx : Z) (e : entry) : result (list entry) :=
  if (idx <? 0) || (len es <? idx) then Panicked SliceBoundsOutOfRange
  else Returned (take (Z.to_nat idx) es ++ e :: drop (Z.to_nat idx) es).

Fixpoint insertNode (fuel : nat) (st : state) (node : addr) (e : entry)
  : result (state * bool) :=
  match fuel with
  | O => OutOfFuel
  | S fuel' =>
    (* if node == b.root && node.isFull(b.order) { b.root = node.split() } *)
    st ← (if decide (Some node = root st) then
            nd ← load (heap st) node;
            if isFull nd (order st) then
              '(st', m) ← split st node;
              Returned (set_root st' (Some m))
            else Returned st
          else Returned st);
    (* [node] still names the object that was the root *)
    nd ← load (heap st) node;
    '(idx, found) ← search (entries nd) (e_key e);
    if found : bool then
      _ ← index (entries nd) idx;
      Returned (store st node (set_entries nd (<[Z.to_nat idx := e]> (entries nd))), false)
    else if isLeaf nd then
      es ← insert_at (entries nd) idx e;
      Returned (set_size (store st node (set_entries nd es)) (wrap64 (size st + 1)), true)
    else
      c ← index (children nd) idx;
      cn ← load (heap st) c;
      st ← (if isFull cn (order st) then
              '(st', m) ← split st c;
              nd' ← load (heap st') node;
              Returned (store st' node (set_children nd' (<[Z.to_nat idx := m]> (children nd'))))
            else Returned st);
      nd' ← load (heap st) node;
      c' ← index (children nd') idx;
      insertNode fuel' st c' e
  end.

Definition insert (fuel : nat) (st : state) (k : key) (v : value) : result state :=
  match root st with
  | None =>
    Returned (State (heap st ++ [Node None [Entry k v] []])
                    (Some (length (heap st)))
                    (wrap64 (size st + 1))
                    (order st))
  | Some r =>
    '(st', _) ← insertNode fuel st r (Entry k v);
    Returned st'
  end.

(** ** remove *)

(** [append(node.entries[:idx], node.entries[idx+1:]...)]: the entry at
    [idx] is dropped; [node.entries[idx+1:]] needs idx+1 <= len. *)
Definition delete_at (es : list entry) (idx : Z) : result (list entry) :=
  if (idx <? 0) || (len es <? idx + 1) then Panicked SliceBoundsOutOfRange
  else Returned (take (Z.to_nat idx) es ++ drop (Z.to_nat (idx + 1)) es).

(** The underflow branch of [removeNode], entered after the entry is gone
    and [b.size] is decremented.  [spew.Dump] only prints, but its argument
    is evaluated. *)
Definition underflow (st : state) (node : addr) (k : key) : result (state * bool) :=
  nd ← load (heap st) node;
  pn ← deref (heap st) (parent nd);
  '(parIdx, _) ← search (entries pn) k;
  lc ← index (children pn) parIdx;
  ln ← load (heap st) lc;
  if canSteal ln (order st) then Panicked (Explicit "can steal from left sibling")
  else
    rLeaf ← index (children pn) (parIdx + 1);
    rn ← load (heap st) rLeaf;
    if canSteal rn (order st) then
      e0 ← index (entries rn) 0;
      let st1 := store st node (set_entries nd (entries nd ++ [e0])) in
      (* rLeaf may be node itself: read it again *)
      rn' ← load (heap st1) rLeaf;
      if len (entries rn') <? 1 then Panicked SliceBoundsOutOfRange
      else Returned (store st1 rLeaf (set_entries rn' (drop 1 (entries rn'))), true)
    else Returned (st, true).

Fixpoint removeNode (fuel : nat) (st : state) (node : addr) (k : key)
  : result (state * bool) :=
  match fuel with
  | O => OutOfFuel
  | S fuel' =>
    nd ← load (heap st) node;
    '(idx, found) ← search (entries nd) k;
    if negb (isLeaf nd) then
      c ← index (children nd) idx;
      removeNode fuel' st c k
    else if negb found then Returned (st, false)
    else
      es ← delete_at (entries nd) idx;
      let st1 := set_size (store st node (set_entries nd es)) (wrap64 (size st - 1)) in
      if isUnderflowed (set_entries nd es) (order st1) then underflow st1 node k
      else Returned (st1, true)
  end.

Definition remove (fuel : nat) (st : state) (k : key) : result (state * bool) :=
  match root st with
  | None => Returned (st, false)
  | Some r => removeNode fuel st r k
  end.

(** ** Well-formed trees *)

(** The structural part of the tree invariants, checked down to depth [d]
    from the node at [a]: every node is allocated, and a node with children
    has exactly one more child than entries. *)
Fixpoint shaped (d : nat) (h : list node) (a : addr) : bool :=
  match h !! a with
  | None => false
  | Some nd =>
    if isLeaf nd then true
    else match d with
         | O => false
         | S d' => (len (children nd) =? len (entries nd) + 1)
                   && forallb (shaped d' h) (children nd)
         end
  end.

(** No entry of the subtree at [a] carries the key [k]. *)
Fixpoint absent (d : nat) (h : list node) (k : key) (a : addr) : bool :=
  match h !! a with
  | None => true
  | Some nd =>
    forallb (fun e => negb (e_key e =? k)) (entries nd)
    && match d with
       | O => true
       | S d' => forallb (absent d' h k) (children nd)
       end
  end.

Definition well_shaped (d : nat) (st : state) : bool :=
  match root st with
  | None => true
  | Some r => shaped d (heap st) r
  end.

Definition key_absent (d : nat) (st : state) (k : key) : bool :=
  match root st with
  | None => true
  | Some r => absent d (heap st) k r
  end.

(** ** Reachability and the occupancy invariant *)

(** [reach h a b]: following [children] links from [a] leads to [b]. *)
Inductive reach (h : list node) : addr → addr → Prop :=
  | reach_refl a : reach h a a
  | reach_child a nd c b :
      h !! a = Some nd → c ∈ children nd → reach h c b → reach h a b.

(** The nodes of the tree proper: those the root leads to. *)
Definition reachable (st : state) (a : addr) : Prop :=
  ∃ r, root st = Some r ∧ reach (heap st) r a.

(** What holds of every object the code has allocated: a node with children
    carries exactly one entry (it was made by [split] and only leaves grow),
    and a parent reference always points at a leaf (the node that [split]
    was called on, which the tree no longer contains). *)
Definition local_inv (h : list node) : Prop :=
  (∀ a nd, h !! a = Some nd → children nd ≠ [] → length (entries nd) = 1%nat) ∧
  (∀ a nd p, h !! a = Some nd → parent nd = Some p →
     ∃ pn, h !! p = Some pn ∧ children pn = []).

(** Every node of the tree holds at most [order] entries. *)
Definition bounded (st : state) : Prop :=
  ∀ a nd, reachable st a → heap st !! a = Some nd → len (entries nd) ≤ order st.

Definition inv (st : state) : Prop := local_inv (heap st) ∧ bounded st.

(** [grows h h']: the store [h'] has the objects of [h], possibly with other
    contents, and maybe more; an old object has gained no link to an old
    object, and the new objects link to new objects only. *)
Definition grows (h h' : list node) : Prop :=
  (∀ x nd', (x < length h)%nat → h' !! x = Some nd' →
     ∃ nd, h !! x = Some nd ∧
       ∀ c, c ∈ children nd' → (c < length h)%nat → c ∈ children nd) ∧
  (∀ x nd' c, (length h ≤ x)%nat → h' !! x = Some nd' → c ∈ children nd' →
     (length h ≤ c)%nat).

(** The three objects a [split] of the node [nd] at [a] allocates, the
    first of them at address [l]. *)
Definition split_objects (a : addr) (nd : node) (emid : entry) (l : addr) : list node :=
  [Node (Some a) (take (length (entries nd) / 2) (entries nd)) [];
   Node (Some a) (drop (length (entries nd) / 2) (entries nd)) [];
   Node (parent nd) [Entry (e_key emid) None] (children nd ++ [l; S l])].

(** ** Range scans *)

Definition getAll (st : state) (limit : Z) : result (list entry) :=
  if (size st =? 0) || (limit =? 0) then Returned []
  else Panicked (Explicit "unimplemented").

Definition getAbove (st : state) (k : key) (limit : Z) : result (list entry) :=
  Panicked (Explicit "unimplemented").

Definition getBelow (st : state) (k : key) (limit : Z) : result (list entry) :=
  Panicked (Explicit "unimplemented").

Definition getBetween (st : state) (low high : key) (limit : Z) : result (list entry) :=
  Panicked (Explicit "unimplemented").

(** ** Sequences of public operations *)

Inductive op : Type :=
  | OpGet (k : key)
  | OpInsert (k : key) (v : value)
  | OpRemove (k : key)
  | OpGetAll (limit : Z)
  | OpGetAbove (k : key) (limit : Z)
  | OpGetBelow (k : key) (limit : Z)
  | OpGetBetween (low high : key) (limit : Z).

(** One call of the [storage] interface; the value returned to the caller
    is dropped, the tree it leaves behind is kept. *)
Definition step (fuel : nat) (st : state) (o : op) : result state :=
  match o with
  | OpGet k => _ ← get fuel st k; Returned st
  | OpInsert k v => insert fuel st k v
  | OpRemove k => '(st', _) ← remove fuel st k; Returned st'
  | OpGetAll limit => _ ← getAll st limit; Returned st
  | OpGetAbove k limit => _ ← getAbove st k limit; Returned st
  | OpGetBelow k limit => _ ← getBelow st k limit; Returned st
  | OpGetBetween low high limit => _ ← getBetween st low high limit; Returned st
  end.

Fixpoint run (fuel : nat) (st : state) (ops : list op) : result state :=
  match ops with
  | [] => Returned st
  | o :: ops' => st' ← step fuel st o; run fuel st' ops'
  end.

End Model.

Arguments entry : clear implicits.
Arguments node : clear implicits.
Arguments state : clear implicits.
Arguments op : clear implicits.
Arguments value : clear implicits.

(** ** The rest of btree.go *)

Section ModelRest.

Context {V : Type}.

(** [canSplit]: [float64(len(n.entries)) >= 2*math.Ceil(float64(order)/2.0)].
    The ceiling is an integer-valued double of magnitude at most 2^62, so
    doubling it is exact, and so is the comparison. *)
Definition canSplit (n : node V) (order : Z) : bool :=
  2 * ceil_half order <=? float64_of_int (len (entries n)).

(** Every allocated node has its keys in strictly ascending order. *)
Definition all_ascending (h : list (node V)) : bool :=
  forallb (fun nd => ascending (e_key <$> entries nd)) h.

(** Every node with children has exactly one entry and exactly two
    children, both of them allocated. *)
Definition binary (h : list (node V)) : Prop :=
  ∀ a nd, h !! a = Some nd → children nd ≠ [] →
    length (entries nd) = 1%nat ∧ length (children nd) = 2%nat ∧
    ∀ c, c ∈ children nd → (c < length h)%nat.

(** The keys a sequence of operations inserts, in order. *)
Fixpoint inserted_keys (ops : list (op V)) : list key :=
  match ops with
  | [] => []
  | OpInsert k _ :: ops' => k :: inserted_keys ops'
  | _ :: ops' => inserted_keys ops'
  end.

Fixpoint distinct (ks : list key) : bool :=
  match ks with
  | [] => true
  | k :: ks' => negb (existsb (Z.eqb k) ks') && distinct ks'
  end.

(** Every allocated node has ascending keys, all of them satisfying [ok]. *)
Definition sorted_within (h : list (node V)) (ok : key → Prop) : Prop :=
  ∀ a nd, h !! a = Some nd →
    ascending (e_key <$> entries nd) = true ∧ ∀ e, e ∈ entries nd → ok (e_key e).

(** The root pointer names an allocated object that no node lists among
    its children. *)
Definition root_ok (st : state V) : Prop :=
  ∀ r, root st = Some r →
    (r < length (heap st))%nat ∧
    ∀ x ndx, heap st !! x = Some ndx → r ∉ children ndx.

(** What the trees built at an order of at least 2 satisfy, on top of the
    bound on occupancy. *)
Definition tree_inv (st : state V) : Prop :=
  2 ≤ order st ∧ local_inv (heap st) ∧ binary (heap st) ∧ root_ok st.

End ModelRest.

(** ** The canonical split of the specification *)


(** ** Example trees *)

(** Trees of the default order 3, as [insert] builds them from the keys
    1, 2, ... in turn. *)
Definition E (k : key) (v : string) : entry string := Entry k (Some v).

Definition ops_12345 : list (op string) :=
  [OpInsert 1 (Some "a"); OpInsert 2 (Some "b"); OpInsert 3 (Some "c");
   OpInsert 4 (Some "d"); OpInsert 5 (Some "e")]%string.

(** After 1 and 2: a root leaf. *)
Definition tree_12 : state string :=
  State [Node None [E 1 "a"; E 2 "b"] []] (Some 0%nat) 2 3.

(** After 1, 2 and 3: the root leaf holds three entries. *)
Definition root_123 : node string := Node None [E 1 "a"; E 2 "b"; E 3 "c"] [].

Definition tree_123 : state string := State [root_123] (Some 0%nat) 3 3.

(** After 1 .. 5.  The insert of 4 split the root: object 3 is the new
    root, objects 1 and 2 its leaves; object 0 is the old root, which
    received the entry 4 and is no longer part of the tree. *)
Definition leaf_1 : node string := Node (Some 0%nat) [E 1 "a"] [].
Definition leaf_235 : node string := Node (Some 0%nat) [E 2 "b"; E 3 "c"; E 5 "e"] [].
Definition root_2 : node string := Node None [Entry 2 None] [1%nat; 2%nat].

Definition leaf_1234 : node string :=
  Node None [E 1 "a"; E 2 "b"; E 3 "c"; E 4 "d"] [].

Definition tree_12345 : state string :=
  State [Node None [E 1 "a"; E 2 "b"; E 3 "c"; E 4 "d"] []; leaf_1; leaf_235; root_2]
        (Some 3%nat) 5 3.

(** * Properties *)

Section Proofs.

Context {V : Type}.

Implicit Types (es : list (entry V)) (e : entry V) (k : key) (nd : node V)
  (st : state V) (h : list (node V)).

(** ** The result monad *)

Lemma bind_Returned {A B : Type} (m : result A) (f : A → result B) (b : B) :
  m ≫= f = Returned b → ∃ a, m = Returned a ∧ f a = Returned b.
Proof. destruct m as [a| |]; simpl; intros H; try discriminate. by exists a. Qed.

Lemma index_Returned {A : Type} (l : list A) (i : Z) (x : A) :
  index l i = Returned x ↔ 0 ≤ i ∧ l !! Z.to_nat i = Some x.
Proof.
  unfold index. destruct (Z.ltb_spec i 0).
  - split; [discriminate | lia].
  - destruct (l !! Z.to_nat i) eqn:E; split.
    + intros [= ->]. auto.
    + intros [_ [= ->]]. reflexivity.
    + discriminate.
    + intros [_ ?]. discriminate.
Qed.

Lemma index_in_range {A : Type} (l : list A) (i : Z) :
  0 ≤ i < len l → ∃ x, index l i = Returned x ∧ l !! Z.to_nat i = Some x.
Proof.
  intros Hi. unfold len in Hi.
  destruct (lookup_lt_is_Some_2 l (Z.to_nat i)) as [x Hx]; [lia|].
  exists x. split; [|done]. apply index_Returned. split; [lia|done].
Qed.

Lemma index_out_of_range {A : Type} (l : list A) (i : Z) :
  len l ≤ i → index l i = Panicked IndexOutOfRange.
Proof.
  intros Hi. unfold index, len in *. destruct (Z.ltb_spec i 0); [done|].
  rewrite lookup_ge_None_2; [done | lia].
Qed.

Lemma load_Returned h (a : addr) nd : load h a = Returned nd ↔ h !! a = Some nd.
Proof.
  unfold load. destruct (h !! a); split; intros H; try discriminate; congruence.
Qed.

(** ** search *)

(** The loop returns whenever the fuel exceeds the width of the interval,
    with an index inside it; a hit is reported one past the matching
    position. *)
Lemma search_loop_returns fuel es k low high :
  0 ≤ low → high < len es → Z.max 0 (high - low + 1) < Z.of_nat fuel →
  ∃ i found, search_loop fuel es k low high = Returned (i, found) ∧
    (found = true → low + 1 ≤ i ≤ high + 1 ∧
       ∃ e, es !! Z.to_nat (i - 1) = Some e ∧ e_key e = k) ∧
    (found = false → low ≤ high + 1 → low ≤ i ≤ high + 1).
Proof.
  revert low high. induction fuel as [|fuel IH]; intros low high Hlo Hhi Hf; [lia|].
  simpl. destruct (Z.leb_spec low high) as [Hle|Hgt].
  - set (mid := (high + low) ÷ 2).
    assert (Hmid : low ≤ mid ≤ high)
      by (subst mid; Z.quot_rem_to_equations; lia).
    destruct (index_in_range es mid) as (e & -> & He); [lia|]. simpl.
    destruct (Z.ltb_spec (e_key e) k) as [H1|H1].
    + destruct (IH (mid + 1) high) as (i & b & -> & Ht & Hff); [lia..|].
      exists i, b. split; [done|]. split.
      * intros Hb. destruct (Ht Hb) as [? ?]. split; [lia|done].
      * intros Hb _. specialize (Hff Hb). lia.
    + destruct (Z.ltb_spec k (e_key e)) as [H2|H2].
      * destruct (IH low (mid - 1)) as (i & b & -> & Ht & Hff); [lia..|].
        exists i, b. split; [done|]. split.
        -- intros Hb. destruct (Ht Hb) as [? ?]. split; [lia|done].
        -- intros Hb _. specialize (Hff Hb). lia.
      * exists (mid + 1), true. split; [done|]. split; [|done].
        intros _. split; [lia|]. exists e. split; [|lia].
        by replace (mid + 1 - 1) with mid by lia.
  - exists low, false. split; [done|]. split; [done|]. intros _ ?. lia.
Qed.

(** [search] never panics and never runs out of fuel. *)
Lemma search_returns es k :
  ∃ i found, search es k = Returned (i, found) ∧ 0 ≤ i ≤ len es ∧
    (found = true → 1 ≤ i ∧ ∃ e, es !! Z.to_nat (i - 1) = Some e ∧ e_key e = k).
Proof.
  unfold search.
  destruct (search_loop_returns (S (length es)) es k 0 (len es - 1))
    as (i & b & Hs & Ht & Hff); [unfold len; lia..|].
  exists i, b. split; [done|]. split.
  - destruct b.
    + destruct (Ht eq_refl) as [? _]. lia.
    + specialize (Hff eq_refl). unfold len in *. lia.
  - intros Hb. destruct (Ht Hb) as [? ?]. split; [lia|done].
Qed.

(** A key that no entry carries is never reported as found. *)
Lemma search_absent es k :
  (∀ e, e ∈ es → e_key e ≠ k) →
  ∃ i, search es k = Returned (i, false) ∧ 0 ≤ i ≤ len es.
Proof.
  intros Habs. destruct (search_returns es k) as (i & b & Hs & Hi & Ht).
  destruct b; [|by exists i].
  destruct (Ht eq_refl) as (_ & e & He & Hk).
  exfalso. apply (Habs e); [|done]. by eapply list_elem_of_lookup_2.
Qed.

Lemma ascending_head (a : key) (ks : list key) :
  ascending (a :: ks) = true → ∀ b, b ∈ ks → a < b.
Proof.
  revert a. induction ks as [|c ks IH]; intros a Hs b Hb.
  - by apply elem_of_nil in Hb.
  - simpl in Hs. apply andb_true_iff in Hs as [Hac Hs]. apply Z.ltb_lt in Hac.
    apply elem_of_cons in Hb as [->|Hb]; [done|].
    specialize (IH c Hs b Hb). lia.
Qed.

Lemma ascending_tail (a : key) (ks : list key) :
  ascending (a :: ks) = true → ascending ks = true.
Proof.
  destruct ks as [|b ks]; [done|]. simpl. intros H.
  by apply andb_true_iff in H as [_ H].
Qed.

Lemma ascending_lookup (ks : list key) (i j : nat) (a b : key) :
  ascending ks = true → (i < j)%nat → ks !! i = Some a → ks !! j = Some b → a < b.
Proof.
  revert i j. induction ks as [|c ks IH]; intros i j Hs Hij Hi Hj; [done|].
  destruct j as [|j]; [lia|]. simpl in Hj. destruct i as [|i].
  - simpl in Hi. injection Hi as ->.
    eapply ascending_head; [done|]. by eapply list_elem_of_lookup_2.
  - simpl in Hi. eapply (IH i j); [by eapply ascending_tail | lia | done..].
Qed.

(** On ascending keys a miss means that the key is nowhere in the slice. *)
Lemma search_loop_complete fuel es k low high i :
  ascending (e_key <$> es) = true →
  0 ≤ low →
  (∀ j e, es !! j = Some e → Z.of_nat j < low → e_key e < k) →
  (∀ j e, es !! j = Some e → high < Z.of_nat j → k < e_key e) →
  search_loop fuel es k low high = Returned (i, false) →
  ∀ e, e ∈ es → e_key e ≠ k.
Proof.
  intros Hs. revert low high.
  induction fuel as [|fuel IH]; intros low high Hlo Hl Hh Hr; [done|].
  simpl in Hr. destruct (Z.leb_spec low high) as [Hle|Hgt].
  - set (mid := (high + low) ÷ 2) in *.
    assert (Hmid : low ≤ mid ≤ high)
      by (subst mid; Z.quot_rem_to_equations; lia).
    apply bind_Returned in Hr as (em & Hem & Hr).
    apply index_Returned in Hem as [_ Hem].
    assert (Hord : ∀ j1 j2 e1 e2, (j1 < j2)%nat → es !! j1 = Some e1 →
                     es !! j2 = Some e2 → e_key e1 < e_key e2).
    { intros j1 j2 e1 e2 Hj H1 H2.
      eapply (ascending_lookup (e_key <$> es) j1 j2); [done..| |];
        rewrite list_lookup_fmap; [by rewrite H1 | by rewrite H2]. }
    destruct (Z.ltb_spec (e_key em) k) as [H1|H1].
    + eapply (IH (mid + 1) high); [lia| |done|done].
      intros j e He Hj. destruct (decide (j = Z.to_nat mid)) as [->|Hne].
      * rewrite Hem in He. by injection He as <-.
      * pose proof (Hord j (Z.to_nat mid) e em ltac:(lia) He Hem). lia.
    + destruct (Z.ltb_spec k (e_key em)) as [H2|H2]; [|done].
      eapply (IH low (mid - 1)); [lia|done| |done].
      intros j e He Hj. destruct (decide (j = Z.to_nat mid)) as [->|Hne].
      * rewrite Hem in He. by injection He as <-.
      * pose proof (Hord (Z.to_nat mid) j em e ltac:(lia) Hem He). lia.
  - intros e He. apply list_elem_of_lookup_1 in He as [j Hj].
    destruct (Z.lt_ge_cases (Z.of_nat j) low) as [Hc|Hc].
    + specialize (Hl j e Hj Hc). lia.
    + specialize (Hh j e Hj ltac:(lia)). lia.
Qed.

(** On ascending keys [search] finds every key that is there, and reports
    it one past its position. *)
Lemma search_finds es k e0 :
  ascending (e_key <$> es) = true → e0 ∈ es → e_key e0 = k →
  ∃ i, search es k = Returned (i, true) ∧ 1 ≤ i ≤ len es ∧
       ∃ e, es !! Z.to_nat (i - 1) = Some e ∧ e_key e = k.
Proof.
  intros Hs He0 Hk. destruct (search_returns es k) as (i & b & Hr & Hi & Ht).
  destruct b.
  - exists i. destruct (Ht eq_refl) as [? ?]. split; [done|]. split; [lia|done].
  - exfalso. unfold search in Hr.
    eapply (search_loop_complete _ es k 0 (len es - 1) i); [done|lia| | |done|done|done].
    + intros j e _ Hj. lia.
    + intros j e Hj Hlt. apply lookup_lt_Some in Hj. unfold len in Hlt. lia.
Qed.

(** ** Occupancy arithmetic *)

Lemma float64_of_int_exact (x : Z) : Z.abs x < 2 ^ 53 → float64_of_int x = x.
Proof.
  intros H. unfold float64_of_int. by destruct (Z.ltb_spec (Z.abs x) (2 ^ 53)); [|lia].
Qed.

Lemma float64_of_int_nonpos (x : Z) : x ≤ 0 → float64_of_int x ≤ 0.
Proof.
  intros H. unfold float64_of_int.
  destruct (Z.ltb_spec (Z.abs x) (2 ^ 53)) as [|Hbig]; [done|].
  set (e := Z.log2 (Z.abs x) - 52).
  assert (He : 0 < 2 ^ e) by (apply Z.pow_pos_nonneg; [lia|];
    subst e; pose proof (Z.log2_le_mono (2 ^ 53) (Z.abs x) Hbig) as Hl;
    rewrite Z.log2_pow2 in Hl; lia).
  assert (Hq : 0 ≤ Z.abs x / 2 ^ e) by (apply Z.div_pos; lia).
  set (q' := if Z.abs x `mod` 2 ^ e <? 2 ^ (e - 1) then Z.abs x / 2 ^ e
             else if 2 ^ (e - 1) <? Z.abs x `mod` 2 ^ e then Z.abs x / 2 ^ e + 1
             else if Z.even (Z.abs x / 2 ^ e) then Z.abs x / 2 ^ e
             else Z.abs x / 2 ^ e + 1).
  assert (Hq' : 0 ≤ q') by (subst q'; repeat case_match; lia).
  assert (Hs : Z.sgn x = -1) by (apply Z.sgn_neg; lia).
  rewrite Hs. nia.
Qed.

Lemma ceil_half_exact (o : Z) : Z.abs o < 2 ^ 53 → ceil_half o = (o + 1) / 2.
Proof. intros H. unfold ceil_half. by rewrite float64_of_int_exact. Qed.

Lemma ceil_half_nonpos (o : Z) : o ≤ 0 → ceil_half o ≤ 0.
Proof.
  intros H. unfold ceil_half. pose proof (float64_of_int_nonpos o H).
  Z.div_mod_to_equations. lia.
Qed.

Lemma median_index (n : nat) : Z.to_nat (Z.of_nat n ÷ 2) = (n / 2)%nat.
Proof.
  rewrite Z.quot_div_nonneg by lia.
  change 2 with (Z.of_nat 2). rewrite <- Nat2Z.inj_div. apply Nat2Z.id.
Qed.

(** ** Construction *)

(** C10.  [newBtreeOrder] stores whatever order it is given, next to a nil
    root and a size of zero; nothing checks that the order is at least 3.
    The stored value is the one [isFull], [isUnderflowed] and [canSteal]
    compare entry counts against, so an order of zero or less makes every
    node full and no node underflowed. *)
Theorem newBtreeOrder_unvalidated (o : Z) :
  let b : state V := newBtreeOrder o in
  order b = o ∧ root b = None ∧ size b = 0 ∧ heap b = [] ∧
  (∀ nd, isFull nd (order b) = (o <=? len (entries nd)) ∧
         isUnderflowed nd (order b) = (len (entries nd) <? ceil_half o) ∧
         canSteal nd (order b) = (ceil_half o <? len (entries nd))) ∧
  (Z.abs o < 2 ^ 53 → ceil_half (order b) = (o + 1) / 2) ∧
  (o ≤ 0 → ∀ nd, isFull nd (order b) = true ∧ isUnderflowed nd (order b) = false).
Proof.
  simpl. repeat split; try reflexivity.
  - apply ceil_half_exact.
  - unfold isFull, len. apply Z.leb_le. lia.
  - unfold isUnderflowed, len. apply Z.ltb_ge.
    pose proof (ceil_half_nonpos o H). lia.
Qed.

(** ** Range scans *)

(** C9 (as the code has it).  [getAll] answers with the empty slice, and
    leaves the tree as it was, when the tree holds nothing or the limit is
    zero; every other call of [getAll], and every call of [getAbove],
    [getBelow] and [getBetween] whatever the limit, stops with
    panic("unimplemented"). *)
Theorem range_scans_unimplemented st :
  (∀ limit fuel, size st = 0 ∨ limit = 0 →
     getAll st limit = Returned [] ∧ step fuel st (OpGetAll limit) = Returned st) ∧
  (∀ limit, size st ≠ 0 → limit ≠ 0 →
     getAll st limit = Panicked (Explicit "unimplemented")) ∧
  (∀ k limit, getAbove st k limit = Panicked (Explicit "unimplemented")) ∧
  (∀ k limit, getBelow st k limit = Panicked (Explicit "unimplemented")) ∧
  (∀ low high limit, getBetween st low high limit = Panicked (Explicit "unimplemented")).
Proof.
  repeat split; try reflexivity.
  - unfold getAll. destruct H as [->| ->]; [done|]. by rewrite orb_true_r.
  - simpl. unfold getAll. destruct H as [->| ->]; [done|]. by rewrite orb_true_r.
  - intros limit Hs Hl. unfold getAll.
    apply Z.eqb_neq in Hs, Hl. by rewrite Hs, Hl.
Qed.

(** ** split *)

(** What [split] computes on a node that has entries. *)
Lemma split_eq st a nd :
  heap st !! a = Some nd → entries nd ≠ [] →
  ∃ emid, entries nd !! (length (entries nd) / 2)%nat = Some emid ∧
    split st a =
      Returned
        (set_heap st
           (heap st ++
              [Node (Some a) (take (length (entries nd) / 2) (entries nd)) [];
               Node (Some a) (drop (length (entries nd) / 2) (entries nd)) [];
               Node (parent nd) [Entry (e_key emid) None]
                 (children nd ++ [length (heap st); S (length (heap st))])]),
         S (S (length (heap st)))).
Proof.
  intros Ha Hne. unfold split. apply load_Returned in Ha. rewrite Ha. simpl.
  destruct (entries nd) as [|e0 es] eqn:Ees; [done|].
  change (len (e0 :: es) =? 0) with false. cbv iota.
  unfold len. rewrite median_index.
  set (mid := (length (e0 :: es) / 2)%nat).
  assert (Hmid : (mid < length (e0 :: es))%nat)
    by (subst mid; apply Nat.div_lt; simpl; lia).
  destruct (lookup_lt_is_Some_2 (e0 :: es) mid Hmid) as [emid Hemid].
  exists emid. split; [done|].
  assert (Hidx : index (e0 :: es) (Z.of_nat (length (e0 :: es)) ÷ 2) = Returned emid).
  { apply index_Returned. split; [Z.quot_rem_to_equations; lia|].
    by rewrite median_index. }
  by rewrite Hidx.
Qed.


(** ** Point operations on a one-entry tree *)

Lemma search_singleton_hit k (v : value V) :
  search [Entry k v] k = Returned (1, true).
Proof. unfold search. simpl. by rewrite Z.ltb_irrefl. Qed.

Lemma search_singleton_below k k' (v : value V) :
  k' < k → search [Entry k v] k' = Returned (0, false).
Proof.
  intros H. unfold search. simpl.
  destruct (Z.ltb_spec k k'); [lia|]. by destruct (Z.ltb_spec k' k); [|lia].
Qed.

(** C1 (evaluation).  Whatever the order, key and value: insert into the
    empty tree, then get the same key.  [search] reports the hit at index 1
    of a one-entry slice and [getNode] indexes the slice there, so the
    lookup panics instead of returning the entry. *)
Theorem get_after_insert_panics (o : Z) k (v : value V) (fuel fuel' : nat) :
  (st ← insert fuel (newBtreeOrder o) k v; get (S fuel') st k)
  = Panicked IndexOutOfRange.
Proof. simpl. unfold get. simpl. by rewrite search_singleton_hit. Qed.

(** C2 (evaluation).  A tree holding the single key k is asked for a
    smaller key.  [search] answers (0, false); the guard [i > len(children)]
    lets 0 through on a leaf, and [node.children[0]] panics. *)
Theorem get_missing_key_panics (o : Z) k k' (v : value V) (fuel fuel' : nat) :
  k' < k →
  (st ← insert fuel (newBtreeOrder o) k v; get (S fuel') st k')
  = Panicked IndexOutOfRange.
Proof. intros H. simpl. unfold get. simpl. by rewrite search_singleton_below. Qed.

(** C3 (evaluation).  Inserting a key a second time, right after the first
    insert into the empty tree, panics: the entry to overwrite is looked for
    at index 1 of a one-entry slice. *)
Theorem upsert_panics (o : Z) k (v v' : value V) (fuel fuel' : nat) :
  (st ← insert fuel (newBtreeOrder o) k v; insert (S fuel') st k v')
  = Panicked IndexOutOfRange.
Proof.
  simpl. unfold insert. simpl. unfold isFull. simpl.
  destruct (o <=? len [Entry k v]); simpl; by rewrite search_singleton_hit.
Qed.

(** ** remove *)

Lemma absent_entries d h k a nd :
  h !! a = Some nd → absent d h k a = true → ∀ e, e ∈ entries nd → e_key e ≠ k.
Proof.
  intros Ha Habs e He. destruct d; simpl in Habs; rewrite Ha in Habs;
    apply andb_true_iff in Habs as [Hes _];
    rewrite forallb_forall in Hes; apply list_elem_of_In in He;
    specialize (Hes e He); apply negb_true_iff, Z.eqb_neq in Hes; done.
Qed.

Lemma removeNode_absent st k d :
  ∀ fuel a, (d < fuel)%nat →
    shaped d (heap st) a = true → absent d (heap st) k a = true →
    removeNode fuel st a k = Returned (st, false).
Proof.
  induction d as [|d IH]; intros fuel a Hf Hsh Hab;
    (destruct fuel as [|fuel]; [lia|]); simpl in Hsh |- *;
    destruct (heap st !! a) as [nd|] eqn:Ha; try discriminate;
    pose proof (absent_entries _ _ _ _ _ Ha Hab) as Hk;
    destruct (search_absent (entries nd) k Hk) as (i & Hs & Hi);
    apply load_Returned in Ha as Hl; rewrite Hl; simpl; rewrite Hs; simpl;
    destruct (isLeaf nd) eqn:Hleaf; simpl; try done.
  apply andb_true_iff in Hsh as [Hlen Hch]. apply Z.eqb_eq in Hlen.
  destruct (index_in_range (children nd) i) as (c & -> & Hc); [lia|]. simpl.
  apply list_elem_of_lookup_2, list_elem_of_In in Hc.
  rewrite forallb_forall in Hch.
  simpl in Hab. rewrite Ha in Hab. apply andb_true_iff in Hab as [_ Hab].
  rewrite forallb_forall in Hab.
  apply IH; [lia | by apply Hch | by apply Hab].
Qed.

(** C8.  On a well-formed tree, removing a key that no node carries returns
    false and hands back the very state it was given: size, entries and
    structure are all as before. *)
Theorem remove_absent_noop st k d fuel :
  (d < fuel)%nat → well_shaped d st = true → key_absent d st k = true →
  remove fuel st k = Returned (st, false).
Proof.
  unfold well_shaped, key_absent, remove. intros Hf Hsh Hab.
  destruct (root st) as [r|]; [|done]. by eapply removeNode_absent.
Qed.

(** C6 (as the code has it).  When the key sits among the ascending entries
    of a node that has children, [removeNode] swaps nothing: it goes on,
    with the state untouched, into the child just right of the matching
    entry, and its result is the result of the removal there (an
    out-of-range panic if there is no such child). *)
Theorem removeNode_internal_descends fuel st a nd k e0 :
  heap st !! a = Some nd → children nd ≠ [] →
  ascending (e_key <$> entries nd) = true → e0 ∈ entries nd → e_key e0 = k →
  ∃ i e, entries nd !! i = Some e ∧ e_key e = k ∧
    search (entries nd) k = Returned (Z.of_nat (S i), true) ∧
    removeNode (S fuel) st a k =
      match children nd !! S i with
      | Some c => removeNode fuel st c k
      | None => Panicked IndexOutOfRange
      end.
Proof.
  intros Ha Hch Hs He0 Hk.
  destruct (search_finds (entries nd) k e0 Hs He0 Hk) as (idx & Hsr & Hidx & e & He & Hek).
  exists (Z.to_nat (idx - 1)), e.
  replace (Z.of_nat (S (Z.to_nat (idx - 1)))) with idx by lia.
  split; [done|]. split; [done|]. split; [done|].
  simpl. apply load_Returned in Ha. rewrite Ha. simpl. rewrite Hsr. simpl.
  assert (Hleaf : isLeaf nd = false).
  { unfold isLeaf, len. apply Z.eqb_neq. destruct (children nd); [done|simpl; lia]. }
  rewrite Hleaf. simpl. unfold index.
  destruct (Z.ltb_spec idx 0); [lia|].
  replace (S (Z.to_nat (idx - 1))) with (Z.to_nat idx) by lia.
  by destruct (children nd !! Z.to_nat idx).
Qed.

(** The branch of [removeNode] that returns.  Once an entry has been cut out
    of a leaf, and the leaf still holds at least ceil(order/2) entries,
    nothing is rebalanced: it returns true, the size is one less, the leaf
    has one entry fewer and keeps its parent and its (empty) children, and
    every other node is as it was. *)
Lemma removeNode_no_underflow fuel st a nd k idx :
  heap st !! a = Some nd → children nd = [] →
  search (entries nd) k = Returned (idx, true) →
  idx < len (entries nd) →
  ceil_half (order st) ≤ len (entries nd) - 1 →
  ∃ st' nd',
    removeNode (S fuel) st a k = Returned (st', true) ∧
    size st' = wrap64 (size st - 1) ∧ root st' = root st ∧ order st' = order st ∧
    length (heap st') = length (heap st) ∧
    (∀ x, x ≠ a → heap st' !! x = heap st !! x) ∧
    heap st' !! a = Some nd' ∧
    parent nd' = parent nd ∧ children nd' = children nd ∧
    len (entries nd') = len (entries nd) - 1.
Proof.
  intros Ha Hch Hs Hidx Hmin.
  destruct (search_returns (entries nd) k) as (i & b & Hs' & Hi & _).
  rewrite Hs in Hs'. injection Hs' as <- <-.
  set (es' := take (Z.to_nat idx) (entries nd) ++ drop (Z.to_nat (idx + 1)) (entries nd)).
  assert (Hlen : len es' = len (entries nd) - 1).
  { subst es'. unfold len in *. rewrite length_app, length_take, length_drop. lia. }
  assert (Hdel : delete_at (entries nd) idx = Returned es').
  { unfold delete_at. destruct (Z.ltb_spec idx 0); [lia|].
    by destruct (Z.ltb_spec (len (entries nd)) (idx + 1)); [lia|]. }
  exists (set_size (store st a (set_entries nd es')) (wrap64 (size st - 1))),
    (set_entries nd es').
  split.
  - simpl. apply load_Returned in Ha. rewrite Ha. simpl. rewrite Hs. simpl.
    unfold isLeaf. rewrite Hch. simpl. rewrite Hdel. simpl.
    unfold isUnderflowed. simpl.
    by destruct (Z.ltb_spec (len es') (ceil_half (order st))); [lia|].
  - simpl. repeat split; try done.
    + apply length_insert.
    + intros x Hx. by apply list_lookup_insert_ne.
    + apply list_lookup_insert_eq. by eapply lookup_lt_Some.
Qed.

(** C7 (evaluation).  The node deleted from is the root, a leaf whose parent
    reference is nil, and the cut leaves it with fewer than ceil(order/2)
    entries - possibly exactly ceil(order/2) - 1.  [removeNode] has no test
    for the root: it takes the underflow branch, reads [node.parent.entries]
    and panics on the nil pointer instead of returning true. *)
Theorem remove_root_underflow_panics fuel st r nd k idx es :
  root st = Some r → heap st !! r = Some nd →
  children nd = [] → parent nd = None →
  search (entries nd) k = Returned (idx, true) →
  delete_at (entries nd) idx = Returned es →
  len es < ceil_half (order st) →
  remove (S fuel) st k = Panicked NilDereference.
Proof.
  intros Hroot Hr Hleaf Hpar Hs Hdel Hlen.
  pose proof (lookup_lt_Some _ _ _ Hr) as Hlt.
  unfold remove. rewrite Hroot. simpl. apply load_Returned in Hr. rewrite Hr. simpl.
  rewrite Hs. simpl. unfold isLeaf. rewrite Hleaf. simpl.
  rewrite Hdel. simpl. unfold isUnderflowed. simpl.
  destruct (Z.ltb_spec (len es) (ceil_half (order st))); [|lia].
  unfold underflow, load. simpl. rewrite list_lookup_insert_eq by done. simpl.
  by rewrite Hpar.
Qed.

(** ** Reachability *)

Lemma reach_snoc h a b nd c :
  reach h a b → h !! b = Some nd → c ∈ children nd → reach h a c.
Proof.
  induction 1 as [a|a nda c' b Ha Hc' _ IH]; intros Hb Hc.
  - eapply reach_child; [done..|]. apply reach_refl.
  - eapply reach_child; [done..|]. by apply IH.
Qed.

Lemma reach_grows h h' a b :
  grows h h' → reach h' a b →
  ((length h ≤ a)%nat → (length h ≤ b)%nat) ∧
  ((a < length h)%nat → (b < length h)%nat → reach h a b).
Proof.
  intros [Hold Hnew]. induction 1 as [a|a nd' c b Ha Hc _ [IH1 IH2]].
  - split; [done|]. intros _ _. apply reach_refl.
  - split.
    + intros Hge. apply IH1. by eapply Hnew.
    + intros Hlt Hb. destruct (Nat.lt_ge_cases c (length h)) as [Hc'|Hc'].
      * destruct (Hold a nd' Hlt Ha) as (nd & Hnd & Hch).
        eapply reach_child; [done | by apply Hch | by apply IH2].
      * specialize (IH1 Hc'). lia.
Qed.

(** Paths to [t] survive any change that keeps the links of every object
    other than [t]. *)
Lemma reach_upto h h' t a :
  (∀ x nd, x ≠ t → h !! x = Some nd →
     ∃ nd', h' !! x = Some nd' ∧ children nd' = children nd) →
  reach h a t → reach h' a t.
Proof.
  intros Hkeep. induction 1 as [a|a nd c b Ha Hc _ IH].
  - apply reach_refl.
  - destruct (decide (a = b)) as [->|Hne]; [apply reach_refl|].
    destruct (Hkeep a nd Hne Ha) as (nd' & Hnd' & Hch).
    eapply reach_child; [done | by rewrite Hch | by apply IH].
Qed.

(** The bound moves along [grows]: every new object must fit, and so must
    the old tree nodes unless the root is a new object. *)
Lemma bounded_grows st st' :
  bounded st → grows (heap st) (heap st') → order st' = order st →
  (root st' = root st ∧
     (∀ x nd', reachable st x → heap st' !! x = Some nd' →
        len (entries nd') ≤ order st)) ∨
  (∃ m, root st' = Some m ∧ (length (heap st) ≤ m)%nat) →
  (∀ x nd', (length (heap st) ≤ x)%nat → heap st' !! x = Some nd' →
     len (entries nd') ≤ order st) →
  bounded st'.
Proof.
  intros Hb Hg Ho Hroot Hnew x nd' (r & Hr & Hreach) Hx. rewrite Ho.
  destruct (reach_grows _ _ _ _ Hg Hreach) as [H1 H2].
  destruct (Nat.lt_ge_cases x (length (heap st))) as [Hlt|Hge]; [|by eapply Hnew].
  destruct Hroot as [[Hsame Hold]|(m & Hm & Hmge)].
  - eapply Hold; [|done]. exists r. split; [congruence|].
    apply H2; [|done]. destruct (Nat.lt_ge_cases r (length (heap st))); [done|].
    specialize (H1 ltac:(done)). lia.
  - rewrite Hm in Hr. injection Hr as <-. specialize (H1 Hmge). lia.
Qed.

(** ** Local invariant: preservation *)

Lemma local_inv_set_entries h a nd es' :
  local_inv h → h !! a = Some nd →
  (children nd ≠ [] → length es' = 1%nat) →
  local_inv (<[a := set_entries nd es']> h).
Proof.
  intros [Hint Hpar] Ha Hes. pose proof (lookup_lt_Some _ _ _ Ha) as Hlt. split.
  - intros x ndx Hx Hch. destruct (decide (a = x)) as [<-|Hne].
    + rewrite list_lookup_insert_eq in Hx by done. injection Hx as <-. by apply Hes.
    + rewrite list_lookup_insert_ne in Hx by done. by eapply Hint.
  - intros x ndx p Hx Hp.
    assert (∃ ndx0, h !! x = Some ndx0 ∧ parent ndx0 = Some p) as (ndx0 & Hx0 & Hp0).
    { destruct (decide (a = x)) as [<-|Hne].
      - rewrite list_lookup_insert_eq in Hx by done. injection Hx as <-. by exists nd.
      - rewrite list_lookup_insert_ne in Hx by done. by exists ndx. }
    destruct (Hpar x ndx0 p Hx0 Hp0) as (pn & Hpn & Hleaf).
    destruct (decide (a = p)) as [<-|Hne].
    + exists (set_entries nd es'). rewrite list_lookup_insert_eq by done.
      split; [done|]. simpl. congruence.
    + exists pn. by rewrite list_lookup_insert_ne.
Qed.

Lemma local_inv_set_children h a nd cs' :
  local_inv h → h !! a = Some nd → children nd ≠ [] →
  local_inv (<[a := set_children nd cs']> h).
Proof.
  intros [Hint Hpar] Ha Hch. pose proof (lookup_lt_Some _ _ _ Ha) as Hlt. split.
  - intros x ndx Hx Hchx. destruct (decide (a = x)) as [<-|Hne].
    + rewrite list_lookup_insert_eq in Hx by done. injection Hx as <-. simpl.
      by eapply Hint.
    + rewrite list_lookup_insert_ne in Hx by done. by eapply Hint.
  - intros x ndx p Hx Hp.
    assert (∃ ndx0, h !! x = Some ndx0 ∧ parent ndx0 = Some p) as (ndx0 & Hx0 & Hp0).
    { destruct (decide (a = x)) as [<-|Hne].
      - rewrite list_lookup_insert_eq in Hx by done. injection Hx as <-. by exists nd.
      - rewrite list_lookup_insert_ne in Hx by done. by exists ndx. }
    destruct (Hpar x ndx0 p Hx0 Hp0) as (pn & Hpn & Hleaf).
    exists pn. split; [|done]. rewrite list_lookup_insert_ne; [done|].
    intros <-. congruence.
Qed.

Lemma split_objects_inv a nd emid l ndx :
  ndx ∈ split_objects a nd emid l →
  ndx = Node (Some a) (take (length (entries nd) / 2) (entries nd)) [] ∨
  ndx = Node (Some a) (drop (length (entries nd) / 2) (entries nd)) [] ∨
  ndx = Node (parent nd) [Entry (e_key emid) None] (children nd ++ [l; S l]).
Proof.
  unfold split_objects. rewrite !elem_of_cons, elem_of_nil. tauto.
Qed.

Lemma local_inv_split h a nd emid :
  local_inv h → h !! a = Some nd → children nd = [] →
  local_inv (h ++ split_objects a nd emid (length h)).
Proof.
  intros [Hint Hpar] Ha Hleaf. split.
  - intros x ndx Hx Hch. apply lookup_app_Some in Hx as [Hx|[_ Hx]]; [by eapply Hint|].
    apply list_elem_of_lookup_2, split_objects_inv in Hx as [-> | [-> | ->]]; done.
  - intros x ndx p Hx Hp. apply lookup_app_Some in Hx as [Hx|[_ Hx]].
    + destruct (Hpar x ndx p Hx Hp) as (pn & Hpn & Hl).
      exists pn. split; [by apply lookup_app_l_Some|done].
    + apply list_elem_of_lookup_2, split_objects_inv in Hx as [-> | [-> | ->]];
        simpl in Hp.
      * injection Hp as <-. exists nd. split; [by apply lookup_app_l_Some|done].
      * injection Hp as <-. exists nd. split; [by apply lookup_app_l_Some|done].
      * destruct (Hpar a nd p Ha Hp) as (pn & Hpn & Hl).
        exists pn. split; [by apply lookup_app_l_Some|done].
Qed.

Lemma local_inv_alloc_leaf h (e : entry V) :
  local_inv h → local_inv (h ++ [Node None [e] []]).
Proof.
  intros [Hint Hpar]. split.
  - intros x ndx Hx Hch. apply lookup_app_Some in Hx as [Hx|[_ Hx]]; [by eapply Hint|].
    apply list_elem_of_lookup_2, list_elem_of_singleton in Hx as ->. done.
  - intros x ndx p Hx Hp. apply lookup_app_Some in Hx as [Hx|[_ Hx]].
    + destruct (Hpar x ndx p Hx Hp) as (pn & Hpn & Hl).
      exists pn. split; [by apply lookup_app_l_Some|done].
    + apply list_elem_of_lookup_2, list_elem_of_singleton in Hx as ->. done.
Qed.

(** ** Growth of the store *)

Lemma grows_refl h : grows h h.
Proof.
  split.
  - intros x nd' _ Hx. exists nd'. by split.
  - intros x nd' c Hge Hx _. apply lookup_lt_Some in Hx. lia.
Qed.

Lemma grows_app h (new : list (node V)) :
  (∀ nd c, nd ∈ new → c ∈ children nd → (length h ≤ c)%nat) →
  grows h (h ++ new).
Proof.
  intros Hnew. split.
  - intros x nd' Hlt Hx. rewrite lookup_app_l in Hx by done. exists nd'. by split.
  - intros x nd' c Hge Hx Hc. rewrite lookup_app_r in Hx by done.
    eapply Hnew; [|done]. by eapply list_elem_of_lookup_2.
Qed.

Lemma grows_update h h1 x nd1 nd2 :
  grows h h1 → h1 !! x = Some nd1 → (x < length h)%nat →
  (∀ c, c ∈ children nd2 → (c < length h)%nat → c ∈ children nd1) →
  grows h (<[x := nd2]> h1).
Proof.
  intros [Hold Hnew] Hx Hlt Hch. pose proof (lookup_lt_Some _ _ _ Hx) as Hlt1. split.
  - intros y nd' Hy Hy'. destruct (decide (x = y)) as [<-|Hne].
    + rewrite list_lookup_insert_eq in Hy' by done. injection Hy' as <-.
      destruct (Hold x nd1 Hlt Hx) as (nd & Hnd & Hsub). exists nd. split; [done|].
      intros c Hc Hcl. apply Hsub; [|done]. by apply Hch.
    + rewrite list_lookup_insert_ne in Hy' by done. by apply Hold.
  - intros y nd' c Hge Hy Hc. rewrite list_lookup_insert_ne in Hy by lia.
    by eapply Hnew.
Qed.

Lemma grows_split h a nd emid :
  children nd = [] → grows h (h ++ split_objects a nd emid (length h)).
Proof.
  intros Hleaf. apply grows_app. intros ndx c Hndx Hc.
  apply split_objects_inv in Hndx as [-> | [-> | ->]]; simpl in Hc.
  - by apply elem_of_nil in Hc.
  - by apply elem_of_nil in Hc.
  - rewrite Hleaf in Hc. simpl in Hc.
    rewrite !elem_of_cons, elem_of_nil in Hc. lia.
Qed.

Lemma split_objects_bounded a nd emid l ndx (o : Z) :
  1 ≤ o → len (entries nd) ≤ o → ndx ∈ split_objects a nd emid l →
  len (entries ndx) ≤ o.
Proof.
  intros Ho Hnd Hx. unfold len in *.
  apply split_objects_inv in Hx as [-> | [-> | ->]]; simpl.
  - rewrite length_take. lia.
  - rewrite length_drop. lia.
  - lia.
Qed.

(** ** The invariant along the mutations of insert and remove *)

Lemma inv_set_size st s : inv st → inv (set_size st s).
Proof. intros H. exact H. Qed.

Lemma inv_store_entries st a nd es' :
  inv st → heap st !! a = Some nd →
  (children nd ≠ [] → length es' = 1%nat) → len es' ≤ order st →
  inv (store st a (set_entries nd es')).
Proof.
  intros [Hloc Hb] Ha Hint Hlen. split.
  - by apply local_inv_set_entries.
  - pose proof (lookup_lt_Some _ _ _ Ha) as Hlt.
    apply (bounded_grows st); [done| |done| |].
    + eapply (grows_update _ _ _ nd); [apply grows_refl|done..].
    + left. split; [done|]. simpl. intros x nd' Hreach Hx.
      destruct (decide (a = x)) as [<-|Hne].
      * rewrite list_lookup_insert_eq in Hx by done. by injection Hx as <-.
      * rewrite list_lookup_insert_ne in Hx by done. by eapply Hb.
    + simpl. intros x nd' Hge Hx. apply lookup_lt_Some in Hx.
      rewrite length_insert in Hx. lia.
Qed.

(** The root was a full leaf and has been split; the entry then goes into
    the old root object, which the new tree does not contain. *)
Lemma inv_root_split st r nd emid es' :
  1 ≤ order st → inv st → root st = Some r → heap st !! r = Some nd →
  children nd = [] →
  inv (store (set_root (set_heap st
                (heap st ++ split_objects r nd emid (length (heap st))))
                (Some (S (S (length (heap st))))))
         r (set_entries nd es')).
Proof.
  intros Ho [Hloc Hb] Hroot Hr Hleaf. split.
  - simpl. apply local_inv_set_entries; [by apply local_inv_split| |done].
    by apply lookup_app_l_Some.
  - pose proof (lookup_lt_Some _ _ _ Hr) as Hlt.
    apply (bounded_grows st); [done| |done| |].
    + simpl. eapply (grows_update _ _ _ nd); [by apply grows_split| |done..].
      by apply lookup_app_l_Some.
    + right. simpl. eexists. split; [done|]. lia.
    + simpl. intros x nd' Hge Hx. rewrite list_lookup_insert_ne in Hx by lia.
      rewrite lookup_app_r in Hx by done.
      eapply split_objects_bounded; [done| |by eapply list_elem_of_lookup_2].
      apply (Hb r); [|done]. exists r. split; [done|apply reach_refl].
Qed.

(** A full leaf child has been split and its slot in the parent now holds
    the node that [split] returned. *)
Lemma inv_child_split st a nd idx c cn emid :
  1 ≤ order st → inv st → reachable st a → heap st !! a = Some nd →
  children nd !! idx = Some c → heap st !! c = Some cn → children cn = [] →
  inv (store (set_heap st (heap st ++ split_objects c cn emid (length (heap st))))
         a (set_children nd (<[idx := S (S (length (heap st)))]> (children nd)))).
Proof.
  intros Ho [Hloc Hb] Hreach Ha Hidx Hc Hleaf.
  pose proof (lookup_lt_Some _ _ _ Ha) as Hlt.
  assert (Hne : children nd ≠ []) by (intros E; by rewrite E in Hidx).
  assert (Hcb : len (entries cn) ≤ order st).
  { apply (Hb c); [|done]. destruct Hreach as (r & Hr & Hp). exists r.
    split; [done|]. eapply reach_snoc; [done..|]. by eapply list_elem_of_lookup_2. }
  split.
  - simpl. apply local_inv_set_children; [by apply local_inv_split| |done].
    by apply lookup_app_l_Some.
  - apply (bounded_grows st); [done| |done| |].
    + simpl. eapply (grows_update _ _ _ nd); [by apply grows_split| |done|].
      * by apply lookup_app_l_Some.
      * simpl. intros c' Hc' Hlt'. apply list_elem_of_lookup_1 in Hc' as [j Hj].
        apply list_lookup_insert_Some in Hj as [(_ & <- & _)|[_ Hj]]; [lia|].
        by eapply list_elem_of_lookup_2.
    + left. split; [done|]. simpl. intros x nd' Hrx Hx.
      destruct (decide (a = x)) as [<-|Hnx].
      * rewrite list_lookup_insert_eq in Hx by (rewrite length_app; lia).
        injection Hx as <-. simpl. by eapply Hb.
      * rewrite list_lookup_insert_ne in Hx by done.
        apply lookup_app_Some in Hx as [Hx|[_ Hx]]; [by eapply Hb|].
        eapply split_objects_bounded; [done..|by eapply list_elem_of_lookup_2].
    + simpl. intros x nd' Hge Hx. rewrite list_lookup_insert_ne in Hx by lia.
      rewrite lookup_app_r in Hx by done.
      eapply split_objects_bounded; [done..|by eapply list_elem_of_lookup_2].
Qed.

(** The first insert: a one-entry leaf becomes the root. *)
Lemma inv_alloc_root st (e : entry V) s :
  1 ≤ order st → inv st → root st = None →
  inv (State (heap st ++ [Node None [e] []]) (Some (length (heap st))) s (order st)).
Proof.
  intros Ho [Hloc Hb] Hroot. split.
  - simpl. by apply local_inv_alloc_leaf.
  - apply (bounded_grows st); [done| |done| |].
    + simpl. apply grows_app. intros ndx c Hndx Hc.
      apply list_elem_of_singleton in Hndx as ->. by apply elem_of_nil in Hc.
    + right. simpl. eexists. split; [done|]. lia.
    + simpl. intros x nd' Hge Hx. rewrite lookup_app_r in Hx by done.
      apply list_elem_of_lookup_2, list_elem_of_singleton in Hx as ->.
      simpl. unfold len. simpl. lia.
Qed.

(** Under the invariant the underflow branch never returns: the parent
    reference is nil or points at a leaf, whose children cannot be
    indexed. *)
Lemma underflow_not_returned st a k r :
  local_inv (heap st) → underflow st a k ≠ Returned r.
Proof.
  intros [_ Hpar] H. unfold underflow in H.
  apply bind_Returned in H as (nd & Hnd & H). apply load_Returned in Hnd.
  apply bind_Returned in H as (pn & Hpn & H).
  destruct (parent nd) as [p|] eqn:Hp; [|done]. simpl in Hpn.
  apply load_Returned in Hpn.
  destruct (Hpar a nd p Hnd Hp) as (pn' & Hpn' & Hleaf).
  assert (pn' = pn) as -> by congruence.
  destruct (search_returns (entries pn) k) as (i & b & Hs & Hi & _).
  rewrite Hs in H. simpl in H. apply bind_Returned in H as (lc & Hlc & _).
  rewrite Hleaf, index_out_of_range in Hlc; [done|]. unfold len. simpl. lia.
Qed.

Lemma insert_at_length es idx e es' :
  insert_at es idx e = Returned es' → len es' = len es + 1.
Proof.
  unfold insert_at. destruct ((idx <? 0) || (len es <? idx)) eqn:E; [done|].
  apply orb_false_iff in E as [E1 E2]. apply Z.ltb_ge in E1, E2.
  intros [= <-]. unfold len in *.
  rewrite length_app, length_take. simpl. rewrite length_drop. lia.
Qed.

Lemma delete_at_length es idx es' :
  delete_at es idx = Returned es' → len es' = len es - 1.
Proof.
  unfold delete_at. destruct ((idx <? 0) || (len es <? idx + 1)) eqn:E; [done|].
  apply orb_false_iff in E as [E1 E2]. apply Z.ltb_ge in E1, E2.
  intros [= <-]. unfold len in *.
  rewrite length_app, length_take, length_drop. lia.
Qed.

Lemma isLeaf_true nd : isLeaf nd = true ↔ children nd = [].
Proof.
  unfold isLeaf, len. by destruct (children nd).
Qed.

(** [insertNode] keeps the invariant.  It is entered at a tree node that,
    unless it is the root, has room. *)
Lemma insertNode_inv fuel :
  ∀ st a e st' b,
    2 ≤ order st → inv st → reachable st a →
    (root st ≠ Some a → ∀ nd, heap st !! a = Some nd → len (entries nd) < order st) →
    insertNode fuel st a e = Returned (st', b) →
    inv st' ∧ order st' = order st.
Proof.
  induction fuel as [|fuel IH]; intros st a e st' b Ho Hinv Hreach Hnf H; [done|].
  simpl in H. apply bind_Returned in H as (st1 & Hst1 & H).
  assert (Hcases :
    (∃ nd emid, root st = Some a ∧ heap st !! a = Some nd ∧ children nd = [] ∧
       st1 = set_root (set_heap st
               (heap st ++ split_objects a nd emid (length (heap st))))
               (Some (S (S (length (heap st)))))) ∨
    (st1 = st ∧ ∀ nd, heap st !! a = Some nd → len (entries nd) < order st)).
  { destruct (decide (Some a = root st)) as [Hr|Hr].
    - apply bind_Returned in Hst1 as (nd & Hnd & Hst1). apply load_Returned in Hnd.
      destruct (isFull nd (order st)) eqn:Hfull; unfold isFull in Hfull.
      + left. apply Z.leb_le in Hfull.
        assert (Hleaf : children nd = []).
        { destruct Hinv as [[Hint _] _].
          destruct (decide (children nd = [])) as [|Hn]; [done|].
          specialize (Hint a nd Hnd Hn). unfold len in Hfull. lia. }
        assert (Hne : entries nd ≠ []).
        { intros E. rewrite E in Hfull. unfold len in Hfull. simpl in Hfull. lia. }
        destruct (split_eq st a nd Hnd Hne) as (emid & _ & Hsp).
        rewrite Hsp in Hst1. simpl in Hst1. injection Hst1 as <-.
        by exists nd, emid.
      + right. injection Hst1 as <-. split; [done|]. intros nd' Hnd'.
        assert (nd' = nd) as -> by congruence. by apply Z.leb_gt in Hfull.
    - right. injection Hst1 as <-. split; [done|]. apply Hnf. congruence. }
  clear Hst1 Hnf.
  apply bind_Returned in H as (nd & Hnd & H). apply load_Returned in Hnd.
  apply bind_Returned in H as ([idx found] & Hs & H).
  destruct (search_returns (entries nd) (e_key e)) as (i' & b' & Hs' & Hi & _).
  rewrite Hs in Hs'. injection Hs' as <- <-.
  destruct Hcases as [(nd0 & emid & Hroot & Hnd0 & Hleaf & ->)|[-> Hlt]].
  - (* the root was full and has been split *)
    simpl in Hnd. rewrite lookup_app_l in Hnd by (by eapply lookup_lt_Some).
    assert (nd0 = nd) as -> by congruence.
    destruct found.
    + apply bind_Returned in H as (? & _ & H). injection H as <- <-.
      split; [|done]. apply inv_root_split; [lia|done..].
    + apply isLeaf_true in Hleaf as Hl. rewrite Hl in H.
      apply bind_Returned in H as (es & _ & H). injection H as <- <-.
      split; [|done]. apply inv_set_size, inv_root_split; [lia|done..].
  - specialize (Hlt nd Hnd). destruct Hinv as [Hloc Hb].
    destruct found.
    + (* overwrite in place *)
      apply bind_Returned in H as (? & _ & H). injection H as <- <-.
      split; [|done]. apply inv_store_entries; [done|done| |].
      * intros Hch. rewrite length_insert. destruct Hloc as [Hint _]. by eapply Hint.
      * unfold len in *. rewrite length_insert. lia.
    + destruct (isLeaf nd) eqn:Hl.
      * (* a leaf with room *)
        apply bind_Returned in H as (es & Hes & H). injection H as <- <-.
        apply insert_at_length in Hes. apply isLeaf_true in Hl.
        split; [|done]. apply inv_set_size, inv_store_entries; [done|done|done|lia].
      * (* descend *)
        apply bind_Returned in H as (c & Hc & H). apply index_Returned in Hc as [Hidx Hc].
        apply bind_Returned in H as (cn & Hcn & H). apply load_Returned in Hcn.
        apply bind_Returned in H as (st2 & Hst2 & H).
        assert (Hrc : reachable st c).
        { destruct Hreach as (r & Hr & Hp). exists r. split; [done|].
          eapply reach_snoc; [done..|]. by eapply list_elem_of_lookup_2. }
        pose proof (lookup_lt_Some _ _ _ Hnd) as Hlta.
        destruct (isFull cn (order st)) eqn:Hfull; unfold isFull in Hfull.
        -- (* the child is full: split it first *)
           apply Z.leb_le in Hfull.
           assert (Hleaf : children cn = []).
           { destruct Hloc as [Hint _].
             destruct (decide (children cn = [])) as [|Hn]; [done|].
             specialize (Hint c cn Hcn Hn). unfold len in Hfull. lia. }
           assert (Hne : entries cn ≠ []).
           { intros E. rewrite E in Hfull. unfold len in Hfull. simpl in Hfull. lia. }
           destruct (split_eq st c cn Hcn Hne) as (emid & _ & Hsp).
           rewrite Hsp in Hst2. simpl in Hst2.
           apply bind_Returned in Hst2 as (nd' & Hnd' & Hst2).
           apply load_Returned in Hnd'. rewrite lookup_app_l in Hnd' by done.
           assert (nd' = nd) as -> by congruence. injection Hst2 as <-.
           apply bind_Returned in H as (nd3 & Hnd3 & H). apply load_Returned in Hnd3.
           simpl in Hnd3.
           rewrite list_lookup_insert_eq in Hnd3 by (rewrite length_app; lia).
           injection Hnd3 as <-.
           apply bind_Returned in H as (c' & Hc' & H).
           apply index_Returned in Hc' as [_ Hc']. simpl in Hc'.
           rewrite list_lookup_insert_eq in Hc' by (by eapply lookup_lt_Some).
           injection Hc' as <-.
           set (st3 := store _ a _) in H.
           assert (Hinv3 : inv st3) by (apply inv_child_split; [lia|done..]).
           destruct (IH st3 (S (S (length (heap st)))) e st' b) as [Hinv' Ho'];
             [done|done| | |done|by split].
           ++ destruct Hreach as (r & Hr & Hp). exists r. split; [done|].
              eapply (reach_snoc _ _ a); [| |].
              ** eapply reach_upto; [|done]. intros x ndx Hx Hndx. subst st3. simpl.
                 exists ndx. rewrite list_lookup_insert_ne by done.
                 split; [by apply lookup_app_l_Some|done].
              ** subst st3. simpl.
                 apply list_lookup_insert_eq. rewrite length_app. lia.
              ** simpl. apply list_elem_of_insert. by eapply lookup_lt_Some.
           ++ intros _ ndm Hndm. subst st3. simpl in Hndm.
              rewrite list_lookup_insert_ne in Hndm by lia.
              rewrite lookup_app_r in Hndm by lia.
              replace (S (S (length (heap st))) - length (heap st))%nat
                with 2%nat in Hndm by lia.
              injection Hndm as <-. simpl. unfold len. simpl. lia.
        -- (* the child has room *)
           apply Z.leb_gt in Hfull. injection Hst2 as <-.
           apply bind_Returned in H as (nd' & Hnd' & H). apply load_Returned in Hnd'.
           assert (nd' = nd) as -> by congruence.
           apply bind_Returned in H as (c' & Hc' & H).
           apply index_Returned in Hc' as [_ Hc'].
           assert (c' = c) as -> by congruence.
           eapply IH; [done|by split|done| |done].
           intros _ cn' Hcn'. by assert (cn' = cn) as -> by congruence.
Qed.

(** [removeNode] keeps the invariant: it only ever shortens a leaf, and
    the underflow branch does not return. *)
Lemma removeNode_inv fuel :
  ∀ st a k st' b,
    inv st → reachable st a →
    removeNode fuel st a k = Returned (st', b) →
    inv st' ∧ order st' = order st.
Proof.
  induction fuel as [|fuel IH]; intros st a k st' b Hinv Hreach H; [done|].
  simpl in H.
  apply bind_Returned in H as (nd & Hnd & H). apply load_Returned in Hnd.
  apply bind_Returned in H as ([idx found] & Hs & H).
  destruct (isLeaf nd) eqn:Hl; simpl in H.
  - destruct found; simpl in H; [|by injection H as <- <-].
    apply bind_Returned in H as (es & Hes & H). apply delete_at_length in Hes.
    apply isLeaf_true in Hl.
    assert (Hinv1 : inv (set_size (store st a (set_entries nd es)) (wrap64 (size st - 1)))).
    { apply inv_set_size, inv_store_entries; [done..|].
      destruct Hinv as [_ Hb]. specialize (Hb a nd Hreach Hnd). lia. }
    destruct (isUnderflowed (set_entries nd es) (order st)).
    + exfalso. eapply underflow_not_returned; [|done]. apply Hinv1.
    + by injection H as <- <-.
  - apply bind_Returned in H as (c & Hc & H). apply index_Returned in Hc as [_ Hc].
    eapply IH; [done| |done].
    destruct Hreach as (r & Hr & Hp). exists r. split; [done|].
    eapply reach_snoc; [done..|]. by eapply list_elem_of_lookup_2.
Qed.

Lemma inv_newBtreeOrder (o : Z) : inv (newBtreeOrder o : state V).
Proof.
  split; [split|]; simpl.
  - intros a nd Ha. by rewrite lookup_nil in Ha.
  - intros a nd p Ha. by rewrite lookup_nil in Ha.
  - intros a nd _ Ha. simpl in Ha. by rewrite lookup_nil in Ha.
Qed.

Lemma step_inv fuel st (o : op V) st' :
  2 ≤ order st → inv st → step fuel st o = Returned st' →
  inv st' ∧ order st' = order st.
Proof.
  intros Ho Hinv H. destruct o; simpl in H.
  - apply bind_Returned in H as (? & _ & H). by injection H as <-.
  - unfold insert in H. destruct (root st) as [r|] eqn:Hr.
    + apply bind_Returned in H as ([st1 b] & Hin & H). injection H as <-.
      eapply insertNode_inv; [done|done| | |done].
      * exists r. split; [done|apply reach_refl].
      * congruence.
    + injection H as <-. split; [|done]. apply inv_alloc_root; [lia|done..].
  - apply bind_Returned in H as ([st1 b] & Hrm & H). injection H as <-.
    unfold remove in Hrm. destruct (root st) as [r|] eqn:Hr.
    + eapply removeNode_inv; [done| |done]. exists r. split; [done|apply reach_refl].
    + by injection Hrm as <- <-.
  - apply bind_Returned in H as (? & _ & H). by injection H as <-.
  - done.
  - done.
  - done.
Qed.

Lemma run_inv fuel (ops : list (op V)) :
  ∀ st st', 2 ≤ order st → inv st → run fuel st ops = Returned st' →
            inv st' ∧ order st' = order st.
Proof.
  induction ops as [|o ops IH]; intros st st' Ho Hinv H; simpl in H.
  - by injection H as <-.
  - apply bind_Returned in H as (st1 & Hstep & H).
    destruct (step_inv _ _ _ _ Ho Hinv Hstep) as [Hinv1 Ho1].
    destruct (IH st1 st') as [Hinv' Ho']; [lia|done..|]. split; [done|congruence].
Qed.

End Proofs.

(** ** The theorems at concrete trees *)

Open Scope string_scope.

Lemma run_ops_12345 : run 3 newBtree ops_12345 = Returned tree_12345.
Proof. reflexivity. Qed.

Lemma run_ops_123 : run 3 newBtree (take 3 ops_12345) = Returned tree_123.
Proof. reflexivity. Qed.

Lemma run_ops_12 : run 3 newBtree (take 2 ops_12345) = Returned tree_12.
Proof. reflexivity. Qed.

(** C2: the tree holding only key 5 panics when asked for key 3. *)
Lemma get_missing_key_panics_witness :
  3 < 5 ∧
  (st ← insert 0 (newBtreeOrder 3) 5 (Some "a"); get 1 st 3)
  = Panicked IndexOutOfRange.
Proof.
  split; [lia|]. apply (get_missing_key_panics 3 5 3 (Some "a") 0 0). lia.
Defined.



(** C5: the claim fails at order 3.  After the inserts of 1, 2 and 3 the
    root, still the object allocated first, holds three entries: it was not
    split when it held order - 1 = 2, and 3 is more than order - 1. *)
Lemma occupancy_counterexample :
  run 3 (newBtreeOrder 3) (take 3 ops_12345) = Returned tree_123 ∧
  reachable tree_123 0 ∧ heap tree_123 !! 0%nat = Some root_123 ∧
  isFull (Node None [E 1 "a"; E 2 "b"] []) 3 = false ∧
  ¬ len (entries root_123) ≤ order tree_123 - 1.
Proof.
  split; [reflexivity|]. split; [|split; [reflexivity|split; [reflexivity|]]].
  - exists 0%nat. split; [reflexivity|apply reach_refl].
  - unfold len. simpl. lia.
Qed.

(** C6: key 2 sits in the root of [tree_12345]; its removal goes on in the
    child to the right. *)
Lemma removeNode_internal_descends_witness :
  ∃ i e, entries root_2 !! i = Some e ∧ e_key e = 2 ∧
    search (entries root_2) 2 = Returned (Z.of_nat (S i), true) ∧
    removeNode 2 tree_12345 3 2 =
      match children root_2 !! S i with
      | Some c => removeNode 1 tree_12345 c 2
      | None => Panicked IndexOutOfRange
      end.
Proof.
  apply (removeNode_internal_descends 1 tree_12345 3 root_2 2 (Entry 2 None));
    [reflexivity | discriminate | reflexivity | constructor | reflexivity].
Defined.

(** C6: the claim fails on [tree_12345].  Key 2 is stored in the internal
    root; remove(2) returns true, but nothing was swapped with the
    predecessor in the left leaf, and key 2 is still in the root and in the
    right leaf (which lost key 3 instead). *)
Lemma remove_internal_counterexample :
  ∃ st',
    remove 2 tree_12345 2 = Returned (st', true) ∧
    heap st' !! 3%nat = Some root_2 ∧
    heap st' !! 1%nat = Some leaf_1 ∧
    heap st' !! 2%nat = Some (Node (Some 0%nat) [E 2 "b"; E 5 "e"] []).
Proof. eexists. split; [reflexivity|]. by repeat split. Qed.

(** C7: remove(1) on [tree_12], whose root leaf holds the keys 1 and 2.
    The cut leaves one entry, which is ceil(3/2) - 1. *)
Lemma remove_root_underflow_panics_witness :
  root tree_12 = Some 0%nat ∧
  ceil_half (order tree_12) - 1 = 1 ∧
  remove 1 tree_12 1 = Panicked NilDereference.
Proof.
  split; [reflexivity|]. split; [reflexivity|].
  apply (remove_root_underflow_panics 0 tree_12 0
           (Node None [E 1 "a"; E 2 "b"] []) 1 1 [E 1 "a"]);
    reflexivity.
Defined.

(** C8: key 9 is not in [tree_12345]. *)
Lemma remove_absent_noop_witness :
  (1 < 2)%nat ∧ well_shaped 1 tree_12345 = true ∧ key_absent 1 tree_12345 9 = true ∧
  remove 2 tree_12345 9 = Returned (tree_12345, false).
Proof.
  split; [lia|]. split; [reflexivity|]. split; [reflexivity|].
  apply (remove_absent_noop tree_12345 9 1 2); [lia|reflexivity|reflexivity].
Defined.

(** C9: [getAll] with a zero limit, and with a limit of ten. *)
Lemma range_scans_unimplemented_witness :
  getAll tree_12345 0 = Returned [] ∧
  getAll tree_12345 10 = Panicked (Explicit "unimplemented").
Proof.
  destruct (range_scans_unimplemented tree_12345) as (H0 & H1 & _).
  split.
  - apply (H0 0 0%nat). by right.
  - by apply H1.
Defined.

(** C9: the claim fails on [tree_12345]: with a limit of zero [getAbove],
    [getBelow] and [getBetween] do not yield the empty result, and [getAll]
    with room for ten results returns none of the five entries. *)
Lemma range_scans_counterexample :
  getAbove tree_12345 0 0 = Panicked (Explicit "unimplemented") ∧
  getBelow tree_12345 9 0 = Panicked (Explicit "unimplemented") ∧
  getBetween tree_12345 1 5 0 = Panicked (Explicit "unimplemented") ∧
  getAll tree_12345 10 = Panicked (Explicit "unimplemented").
Proof. by repeat split. Qed.

(** C10: an order of zero is taken as it is; every node then counts as
    full and none as underflowed. *)
Lemma newBtreeOrder_unvalidated_witness :
  order (newBtreeOrder 0 : state string) = 0 ∧
  ∀ nd : node string, isFull nd 0 = true ∧ isUnderflowed nd 0 = false.
Proof.
  destruct (newBtreeOrder_unvalidated (V := string) 0)
    as (Ho & _ & _ & _ & _ & _ & H).
  split; [exact Ho|]. apply H. lia.
Defined.

(** * Further properties of btree.go *)

Close Scope string_scope.

Section More.

Context {V : Type}.

Implicit Types (es : list (entry V)) (e : entry V) (k : key) (nd : node V)
  (st : state V) (h : list (node V)).

(** ** search *)

(** X1.  [search] returns on every slice, ascending or not: the loop ends, no
    index leaves the slice, the reported index lies in [0, len], and a
    reported hit is one past a position that holds the key. *)
Theorem search_in_bounds es k :
  ∃ i found, search es k = Returned (i, found) ∧ 0 ≤ i ≤ len es ∧
    (found = true →
       1 ≤ i ∧ ∃ e, es !! Z.to_nat (i - 1) = Some e ∧ e_key e = k).
Proof. apply search_returns. Qed.

Lemma search_hit es k (j : nat) e :
  ascending (e_key <$> es) = true → es !! j = Some e → e_key e = k →
  search es k = Returned (Z.of_nat (S j), true).
Proof.
  intros Hs Hj Hk.
  destruct (search_finds es k e Hs) as (i & Hr & Hi & e' & He' & Hk');
    [by eapply list_elem_of_lookup_2|done|].
  rewrite Hr. do 2 f_equal.
  destruct (lt_eq_lt_dec (Z.to_nat (i - 1)) j) as [[Hlt|Heq]|Hgt]; [|lia|].
  - pose proof (ascending_lookup (e_key <$> es) _ _ (e_key e') (e_key e) Hs Hlt) as H.
    rewrite !list_lookup_fmap, He', Hj in H. specialize (H eq_refl eq_refl). lia.
  - pose proof (ascending_lookup (e_key <$> es) _ _ (e_key e) (e_key e') Hs Hgt) as H.
    rewrite !list_lookup_fmap, He', Hj in H. specialize (H eq_refl eq_refl). lia.
Qed.

(** X2.  On ascending keys a key that is present is always found, and the index
    reported is its position plus one. *)
Theorem search_hit_one_past es k (j : nat) e :
  ascending (e_key <$> es) = true → es !! j = Some e → e_key e = k →
  search es k = Returned (Z.of_nat (S j), true).
Proof. apply search_hit. Qed.

Lemma search_loop_miss fuel es k low high i :
  ascending (e_key <$> es) = true →
  0 ≤ low →
  (∀ j e, es !! j = Some e → Z.of_nat j < low → e_key e < k) →
  (∀ j e, es !! j = Some e → high < Z.of_nat j → k < e_key e) →
  search_loop fuel es k low high = Returned (i, false) →
  (∀ j e, es !! j = Some e → Z.of_nat j < i → e_key e < k) ∧
  (∀ j e, es !! j = Some e → i ≤ Z.of_nat j → k < e_key e).
Proof.
  intros Hs. revert low high.
  induction fuel as [|fuel IH]; intros low high Hlo Hl Hh Hr; [done|].
  simpl in Hr. destruct (Z.leb_spec low high) as [Hle|Hgt].
  - set (mid := (high + low) ÷ 2) in *.
    assert (Hmid : low ≤ mid ≤ high)
      by (subst mid; Z.quot_rem_to_equations; lia).
    apply bind_Returned in Hr as (em & Hem & Hr).
    apply index_Returned in Hem as [_ Hem].
    assert (Hord : ∀ j1 j2 e1 e2, (j1 < j2)%nat → es !! j1 = Some e1 →
                     es !! j2 = Some e2 → e_key e1 < e_key e2).
    { intros j1 j2 e1 e2 Hj H1 H2.
      eapply (ascending_lookup (e_key <$> es) j1 j2); [done..| |];
        rewrite list_lookup_fmap; [by rewrite H1 | by rewrite H2]. }
    destruct (Z.ltb_spec (e_key em) k) as [H1|H1].
    + eapply (IH (mid + 1) high); [lia| |done|done].
      intros j e He Hj. destruct (decide (j = Z.to_nat mid)) as [->|Hne].
      * rewrite Hem in He. by injection He as <-.
      * pose proof (Hord j (Z.to_nat mid) e em ltac:(lia) He Hem). lia.
    + destruct (Z.ltb_spec k (e_key em)) as [H2|H2]; [|done].
      eapply (IH low (mid - 1)); [lia|done| |done].
      intros j e He Hj. destruct (decide (j = Z.to_nat mid)) as [->|Hne].
      * rewrite Hem in He. by injection He as <-.
      * pose proof (Hord (Z.to_nat mid) j em e ltac:(lia) Hem He). lia.
  - injection Hr as <-. split.
    + intros j e Hj Hlt. by eapply Hl.
    + intros j e Hj Hge. eapply Hh; [done|lia].
Qed.

Lemma search_miss_partition es k i :
  ascending (e_key <$> es) = true → search es k = Returned (i, false) →
  (∀ j e, es !! j = Some e → Z.of_nat j < i → e_key e < k) ∧
  (∀ j e, es !! j = Some e → i ≤ Z.of_nat j → k < e_key e).
Proof.
  intros Hs Hr. unfold search in Hr.
  eapply (search_loop_miss _ es k 0 (len es - 1)); [done|lia| | |done].
  - intros j e _ Hj. lia.
  - intros j e Hj Hlt. apply lookup_lt_Some in Hj. unfold len in Hlt. lia.
Qed.

(** X3.  On ascending keys a key that is absent is reported as a miss, at the
    place where it belongs: every entry before the index has a smaller key
    and every entry from the index on a larger one. *)
Theorem search_miss_insertion_point es k :
  ascending (e_key <$> es) = true → (∀ e, e ∈ es → e_key e ≠ k) →
  ∃ i, search es k = Returned (i, false) ∧ 0 ≤ i ≤ len es ∧
    (∀ j e, es !! j = Some e → Z.of_nat j < i → e_key e < k) ∧
    (∀ j e, es !! j = Some e → i ≤ Z.of_nat j → k < e_key e).
Proof.
  intros Hs Habs. destruct (search_absent es k Habs) as (i & Hr & Hi).
  exists i. split; [done|]. split; [done|]. by apply search_miss_partition.
Qed.

(** ** Ascending key lists *)

Lemma ascending_cons (a : key) (ks : list key) :
  ascending (a :: ks) = true ↔ (∀ b, b ∈ ks → a < b) ∧ ascending ks = true.
Proof.
  split.
  - intros H. split; [by apply ascending_head | by eapply ascending_tail].
  - intros [Hlt Hs]. destruct ks as [|b ks]; [done|]. simpl.
    apply andb_true_iff. split; [|done]. apply Z.ltb_lt, Hlt. by left.
Qed.

Lemma ascending_app (l1 l2 : list key) :
  ascending (l1 ++ l2) = true ↔
  ascending l1 = true ∧ ascending l2 = true ∧ ∀ a b, a ∈ l1 → b ∈ l2 → a < b.
Proof.
  induction l1 as [|c l1 IH].
  - simpl. split; [intros H|intros (_ & H & _); done].
    split; [done|]. split; [done|]. intros a b Ha. by apply elem_of_nil in Ha.
  - change ((c :: l1) ++ l2) with (c :: (l1 ++ l2)).
    rewrite !ascending_cons, IH. split.
    + intros (Hc & H1 & H2 & Hx). split; [split; [|done]|split; [done|]].
      * intros b Hb. apply Hc. apply elem_of_app. by left.
      * intros a b Ha Hb. apply elem_of_cons in Ha as [->|Ha]; [|by apply Hx].
        apply Hc. apply elem_of_app. by right.
    + intros ((Hc & H1) & H2 & Hx). split; [|split; [done|split; [done|]]].
      * intros b Hb. apply elem_of_app in Hb as [Hb|Hb]; [by apply Hc|].
        apply Hx; [by left|done].
      * intros a b Ha Hb. apply Hx; [by right|done].
Qed.

Lemma ascending_take_drop (ks : list key) (n : nat) :
  ascending ks = true →
  ascending (take n ks) = true ∧ ascending (drop n ks) = true ∧
  ∀ a b, a ∈ take n ks → b ∈ drop n ks → a < b.
Proof. intros H. apply ascending_app. by rewrite take_drop. Qed.

(** Putting a key where [search] says it belongs keeps the order. *)
Lemma ascending_insert_at es k (v : value V) i es' :
  ascending (e_key <$> es) = true →
  (∀ j e, es !! j = Some e → Z.of_nat j < i → e_key e < k) →
  (∀ j e, es !! j = Some e → i ≤ Z.of_nat j → k < e_key e) →
  insert_at es i (Entry k v) = Returned es' →
  ascending (e_key <$> es') = true.
Proof.
  intros Hs Hlo Hhi Hins. unfold insert_at in Hins.
  destruct ((i <? 0) || (len es <? i)) eqn:E; [done|].
  apply orb_false_iff in E as [E1 E2]. apply Z.ltb_ge in E1, E2.
  injection Hins as <-. rewrite fmap_app, fmap_cons, fmap_take, fmap_drop. simpl.
  destruct (ascending_take_drop _ (Z.to_nat i) Hs) as (Ht & Hd & Hx).
  apply ascending_app. split; [done|]. split.
  - apply ascending_cons. split; [|done]. intros b Hb.
    rewrite <- fmap_drop in Hb. apply list_elem_of_fmap in Hb as (e & -> & He).
    apply list_elem_of_lookup_1 in He as [j Hj]. rewrite lookup_drop in Hj.
    eapply Hhi; [done|lia].
  - intros a b Ha Hb.
    rewrite <- fmap_take in Ha. apply list_elem_of_fmap in Ha as (e & -> & He).
    apply list_elem_of_lookup_1 in He as [j Hj].
    apply lookup_take_Some in Hj as [Hj Hlt].
    assert (e_key e < k) by (eapply Hlo; [done|lia]).
    apply elem_of_cons in Hb as [->|Hb]; [done|].
    rewrite <- fmap_drop in Hb. apply list_elem_of_fmap in Hb as (e2 & -> & He2).
    apply list_elem_of_lookup_1 in He2 as [j2 Hj2]. rewrite lookup_drop in Hj2.
    assert (k < e_key e2) by (eapply Hhi; [done|lia]). lia.
Qed.

Lemma ascending_delete_at es i es' :
  ascending (e_key <$> es) = true → delete_at es i = Returned es' →
  ascending (e_key <$> es') = true.
Proof.
  intros Hs Hdel. unfold delete_at in Hdel.
  destruct ((i <? 0) || (len es <? i + 1)) eqn:E; [done|].
  injection Hdel as <-. rewrite fmap_app, fmap_take, fmap_drop.
  destruct (ascending_take_drop _ (Z.to_nat i) Hs) as (Ht & Hd & Hx).
  destruct (ascending_take_drop _ 1 Hd) as (_ & Hd' & _).
  rewrite drop_drop in Hd'.
  replace (Z.to_nat (i + 1)) with (Z.to_nat i + 1)%nat
    by (apply orb_false_iff in E as [E1 _]; apply Z.ltb_ge in E1; lia).
  apply ascending_app. split; [done|]. split; [done|].
  intros a b Ha Hb. apply Hx; [done|].
  rewrite <- (drop_drop _ 1 (Z.to_nat i)) in Hb.
  apply list_elem_of_lookup_1 in Hb as [j Hj]. rewrite lookup_drop in Hj.
  by eapply list_elem_of_lookup_2.
Qed.

(** ** canSplit, isFull and the halves that split makes *)

(** X11.  When [canSplit] holds, neither half that [split] makes is underflowed:
    the left node gets len/2 entries, the right one the rest, and both
    counts reach ceil(order/2). *)
Theorem canSplit_halves_not_underflowed nd (o : Z) (p : option addr) (cs : list addr) :
  len (entries nd) < 2 ^ 53 → canSplit nd o = true →
  isUnderflowed (Node p (take (length (entries nd) / 2) (entries nd)) cs) o = false ∧
  isUnderflowed (Node p (drop (length (entries nd) / 2) (entries nd)) cs) o = false.
Proof.
  unfold canSplit, isUnderflowed, len. intros Hlen Hc.
  rewrite float64_of_int_exact in Hc by lia. apply Z.leb_le in Hc.
  pose proof (Nat.div_mod_eq (length (entries nd)) 2) as Hd.
  pose proof (Nat.mod_upper_bound (length (entries nd)) 2 ltac:(lia)) as Hm.
  remember (length (entries nd) / 2)%nat as m.
  remember (length (entries nd) `mod` 2)%nat as r.
  cbn [entries]. rewrite length_take, length_drop.
  split; apply Z.ltb_ge; lia.
Qed.

(** X12.  With an odd order, a node holding exactly [order] entries is full, so
    [insertNode] splits it, although [canSplit] is false for it: the left
    half that [split] makes is underflowed from the start. *)
Theorem odd_order_split_underflows nd (o : Z) (p : option addr) (cs : list addr) :
  0 < o < 2 ^ 53 → Z.odd o = true → len (entries nd) = o →
  isFull nd o = true ∧ canSplit nd o = false ∧
  isUnderflowed (Node p (take (length (entries nd) / 2) (entries nd)) cs) o = true.
Proof.
  intros Ho Hodd Hlen. unfold isFull, canSplit, isUnderflowed.
  rewrite ceil_half_exact by lia. rewrite float64_of_int_exact by lia.
  unfold len in *.
  pose proof (Nat.div_mod_eq (length (entries nd)) 2) as Hd.
  pose proof (Nat.mod_upper_bound (length (entries nd)) 2 ltac:(lia)) as Hm.
  remember (length (entries nd) / 2)%nat as m.
  remember (length (entries nd) `mod` 2)%nat as r.
  cbn [entries]. rewrite length_take.
  assert (Ho2 : ∃ q, o = 2 * q + 1).
  { destruct (Zodd_ex o) as [q Hq]; [by apply Zodd_bool_iff|]. exists q. lia. }
  destruct Ho2 as [q ->].
  assert (Hc : (2 * q + 1 + 1) / 2 = q + 1) by (Z.div_mod_to_equations; lia).
  rewrite Hc. repeat split.
  - apply Z.leb_le. lia.
  - apply Z.leb_gt. lia.
  - apply Z.ltb_lt. lia.
Qed.

(** ** What insert and remove leave alone *)

Lemma split_frame st a st' (m : addr) :
  split st a = Returned (st', m) →
  size st' = size st ∧ order st' = order st ∧ root st' = root st ∧
  (length (heap st) ≤ length (heap st'))%nat.
Proof.
  unfold split. intros H. apply bind_Returned in H as (nd & _ & H).
  destruct (len (entries nd) =? 0); [by injection H as <- <-|].
  apply bind_Returned in H as (em & _ & H). injection H as <- <-. simpl.
  rewrite length_app. repeat split. lia.
Qed.

Lemma insertNode_frame fuel :
  ∀ st a e st' b,
    insertNode fuel st a e = Returned (st', b) →
    size st' = (if b then wrap64 (size st + 1) else size st) ∧
    order st' = order st ∧
    (length (heap st) ≤ length (heap st'))%nat ∧
    (is_Some (root st) → is_Some (root st')).
Proof.
  induction fuel as [|fuel IH]; intros st a e st' b H; [done|].
  simpl in H. apply bind_Returned in H as (st1 & Hst1 & H).
  assert (F1 : size st1 = size st ∧ order st1 = order st ∧
               (length (heap st) ≤ length (heap st1))%nat ∧
               (is_Some (root st) → is_Some (root st1))).
  { destruct (decide (Some a = root st)); [|by injection Hst1 as <-].
    apply bind_Returned in Hst1 as (nd & _ & Hst1).
    destruct (isFull nd (order st)); [|by injection Hst1 as <-].
    apply bind_Returned in Hst1 as ([st2 m] & Hsp & Hst1). injection Hst1 as <-.
    apply split_frame in Hsp as (? & ? & ? & ?). simpl. by repeat split. }
  clear Hst1. destruct F1 as (Fs & Fo & Fl & Fr).
  apply bind_Returned in H as (nd & _ & H).
  apply bind_Returned in H as ([idx found] & _ & H).
  destruct found.
  { apply bind_Returned in H as (? & _ & H). injection H as <- <-. simpl.
    rewrite length_insert. by repeat split. }
  destruct (isLeaf nd).
  { apply bind_Returned in H as (es & _ & H). injection H as <- <-. simpl.
    rewrite length_insert, Fs. by repeat split. }
  apply bind_Returned in H as (c & _ & H).
  apply bind_Returned in H as (cn & _ & H).
  apply bind_Returned in H as (st2 & Hst2 & H).
  assert (F2 : size st2 = size st1 ∧ order st2 = order st1 ∧
               (length (heap st1) ≤ length (heap st2))%nat ∧
               root st2 = root st1).
  { destruct (isFull cn (order st1)); [|by injection Hst2 as <-].
    apply bind_Returned in Hst2 as ([st3 m] & Hsp & Hst2).
    apply bind_Returned in Hst2 as (nd' & _ & Hst2). injection Hst2 as <-.
    apply split_frame in Hsp as (? & ? & ? & ?). simpl.
    rewrite length_insert. by repeat split. }
  clear Hst2. destruct F2 as (Gs & Go & Gl & Gr).
  apply bind_Returned in H as (nd' & _ & H).
  apply bind_Returned in H as (c' & _ & H).
  apply IH in H as (Hs & Ho & Hl & Hr).
  rewrite Gs, Fs in Hs. rewrite Go, Fo in Ho. rewrite Gr in Hr.
  repeat split; [done|done|lia|auto].
Qed.

(** X4.  [insertNode] reports [inserted = true] exactly when it has counted the
    entry: the size is one more (modulo 2^64) when it returns true, and the
    same when it returns false. *)
Theorem insertNode_size_accounting fuel st a e st' (inserted : bool) :
  insertNode fuel st a e = Returned (st', inserted) →
  size st' = (if inserted then wrap64 (size st + 1) else size st).
Proof. intros H. by apply insertNode_frame in H as (? & _). Qed.

(** X6.  Whenever insert returns, the tree has a root, the order is what it
    was, no object has been freed, and the size has grown by at most one. *)
Theorem insert_frame fuel st k (v : value V) st' :
  insert fuel st k v = Returned st' →
  is_Some (root st') ∧ order st' = order st ∧
  (length (heap st) ≤ length (heap st'))%nat ∧
  (size st' = size st ∨ size st' = wrap64 (size st + 1)).
Proof.
  unfold insert. intros H. destruct (root st) as [r|] eqn:Hr.
  - apply bind_Returned in H as ([st1 b] & Hin & H). injection H as <-.
    apply insertNode_frame in Hin as (Hs & Ho & Hl & Hroot).
    rewrite Hr in Hroot. repeat split; [by apply Hroot|done|done|].
    destruct b; auto.
  - injection H as <-. simpl. rewrite length_app. simpl.
    repeat split; [by eexists|lia|by right].
Qed.

Lemma underflow_frame st a k st' (b : bool) :
  underflow st a k = Returned (st', b) →
  b = true ∧ size st' = size st ∧ order st' = order st ∧ root st' = root st ∧
  length (heap st') = length (heap st).
Proof.
  unfold underflow. intros H.
  apply bind_Returned in H as (nd & _ & H).
  apply bind_Returned in H as (pn & _ & H).
  apply bind_Returned in H as ([parIdx ?] & _ & H).
  apply bind_Returned in H as (lc & _ & H).
  apply bind_Returned in H as (ln & _ & H).
  destruct (canSteal ln (order st)); [done|].
  apply bind_Returned in H as (rLeaf & _ & H).
  apply bind_Returned in H as (rn & _ & H).
  destruct (canSteal rn (order st)); [|by injection H as <- <-].
  apply bind_Returned in H as (e0 & _ & H).
  apply bind_Returned in H as (rn' & _ & H).
  destruct (len (entries rn') <? 1); [done|]. injection H as <- <-. simpl.
  by rewrite !length_insert.
Qed.

Lemma removeNode_frame fuel :
  ∀ st a k st' b,
    removeNode fuel st a k = Returned (st', b) →
    order st' = order st ∧ root st' = root st ∧
    length (heap st') = length (heap st) ∧
    (b = false → st' = st) ∧
    (b = true → size st' = wrap64 (size st - 1)).
Proof.
  induction fuel as [|fuel IH]; intros st a k st' b H; [done|].
  simpl in H. apply bind_Returned in H as (nd & _ & H).
  apply bind_Returned in H as ([idx found] & _ & H).
  destruct (isLeaf nd); simpl in H.
  - destruct found; simpl in H; [|by injection H as <- <-].
    apply bind_Returned in H as (es & _ & H).
    destruct (isUnderflowed (set_entries nd es) (order st)).
    + apply underflow_frame in H as (-> & Hs & Ho & Hr & Hl). simpl in *.
      rewrite length_insert in Hl. by repeat split.
    + injection H as <- <-. simpl. rewrite length_insert. by repeat split.
  - apply bind_Returned in H as (c & _ & H). by apply IH in H.
Qed.

(** X5.  remove allocates nothing and changes neither the root pointer nor the
    order.  When it returns false the tree is exactly as before; when it
    returns true the size is one less (modulo 2^64). *)
Theorem remove_frame fuel st k st' (removed : bool) :
  remove fuel st k = Returned (st', removed) →
  order st' = order st ∧ root st' = root st ∧
  length (heap st') = length (heap st) ∧
  (removed = false → st' = st) ∧
  (removed = true → size st' = wrap64 (size st - 1)).
Proof.
  unfold remove. destruct (root st) eqn:Hr.
  - intros H. apply removeNode_frame in H. by rewrite Hr in H.
  - intros H. by injection H as <- <-.
Qed.

(** ** get at a single node *)

(** X9.  A hit never yields the entry that was asked for.  When the key sits at
    position j of a node with ascending keys, [getNode] hands back the entry
    at position j + 1, and panics when there is none. *)
Theorem getNode_hit_returns_next fuel st a nd k (j : nat) e :
  heap st !! a = Some nd → ascending (e_key <$> entries nd) = true →
  entries nd !! j = Some e → e_key e = k →
  getNode (S fuel) st a k =
    match entries nd !! S j with
    | Some e' => Returned (Some e', true)
    | None => Panicked IndexOutOfRange
    end.
Proof.
  intros Ha Hs Hj Hk. simpl. apply load_Returned in Ha. rewrite Ha. simpl.
  rewrite (search_hit _ _ j e) by done. simpl. unfold index.
  destruct (Z.ltb_spec (Z.of_nat (S j)) 0); [lia|].
  rewrite Nat2Z.id. by destruct (entries nd !! S j).
Qed.

(** X10.  A miss at a leaf with ascending keys: [getNode] answers (nil, false)
    when the key is larger than the leaf's first key, and panics on
    [node.children[0]] when the leaf is empty or the key is smaller than
    its first key. *)
Theorem getNode_leaf_miss fuel st a nd k :
  heap st !! a = Some nd → children nd = [] →
  ascending (e_key <$> entries nd) = true →
  (∀ e, e ∈ entries nd → e_key e ≠ k) →
  getNode (S fuel) st a k =
    match entries nd with
    | [] => Panicked IndexOutOfRange
    | e0 :: _ => if k <? e_key e0 then Panicked IndexOutOfRange
                 else Returned (None, false)
    end.
Proof.
  intros Ha Hleaf Hs Habs. simpl. apply load_Returned in Ha. rewrite Ha. simpl.
  destruct (search_absent (entries nd) k Habs) as (i & Hr & Hi).
  destruct (search_miss_partition _ _ _ Hs Hr) as [Hlo Hhi].
  rewrite Hr. simpl. rewrite Hleaf. unfold len in *. simpl.
  destruct (entries nd) as [|e0 es] eqn:Ees.
  - simpl in Hi. assert (i = 0) as -> by lia. done.
  - destruct (Z.ltb_spec k (e_key e0)) as [Hk|Hk].
    + assert (i = 0) as ->.
      { destruct (Z.eq_dec i 0) as [|Hne]; [done|].
        specialize (Hlo 0%nat e0 eq_refl ltac:(lia)). lia. }
      done.
    + assert (0 < i).
      { destruct (Z.lt_ge_cases 0 i) as [|Hle]; [done|].
        specialize (Hhi 0%nat e0 eq_refl ltac:(lia)).
        assert (e_key e0 ≠ k) by (apply Habs; by left). lia. }
      change (Z.of_nat 0) with 0. by destruct (Z.ltb_spec 0 i); [|lia].
Qed.

(** ** insert at a root leaf *)

(** X8.  A new key inserted into a root leaf that has room lands in that leaf,
    at the place that keeps the keys ascending; every old entry is kept, the
    size is one more, and no other object changes. *)
Theorem insert_into_root_leaf_with_room fuel st r nd k (v : value V) :
  root st = Some r → heap st !! r = Some nd → children nd = [] →
  isFull nd (order st) = false →
  ascending (e_key <$> entries nd) = true →
  (∀ e, e ∈ entries nd → e_key e ≠ k) →
  ∃ st' nd',
    insert (S fuel) st k v = Returned st' ∧
    root st' = Some r ∧ order st' = order st ∧ size st' = wrap64 (size st + 1) ∧
    heap st' !! r = Some nd' ∧
    parent nd' = parent nd ∧ children nd' = [] ∧
    ascending (e_key <$> entries nd') = true ∧
    (∀ e, e ∈ entries nd' ↔ e = Entry k v ∨ e ∈ entries nd) ∧
    (∀ x, x ≠ r → heap st' !! x = heap st !! x).
Proof.
  intros Hroot Hr Hleaf Hfull Hs Habs.
  destruct (search_absent (entries nd) k Habs) as (i & Hsr & Hi).
  destruct (search_miss_partition _ _ _ Hs Hsr) as [Hlo Hhi].
  set (es := take (Z.to_nat i) (entries nd) ++ Entry k v :: drop (Z.to_nat i) (entries nd)).
  assert (Hins : insert_at (entries nd) i (Entry k v) = Returned es).
  { unfold insert_at. destruct (Z.ltb_spec i 0); [lia|].
    by destruct (Z.ltb_spec (len (entries nd)) i); [lia|]. }
  exists (set_size (store st r (set_entries nd es)) (wrap64 (size st + 1))),
    (set_entries nd es).
  pose proof (lookup_lt_Some _ _ _ Hr) as Hlt.
  split.
  { unfold insert. rewrite Hroot. simpl. rewrite Hroot.
    destruct (decide (Some r = Some r)); [|done]. apply load_Returned in Hr.
    rewrite Hr. simpl. rewrite Hfull. simpl. rewrite Hr. simpl. rewrite Hsr. simpl.
    apply isLeaf_true in Hleaf. rewrite Hleaf. by rewrite Hins. }
  simpl. repeat split; try done.
  - by apply list_lookup_insert_eq.
  - by eapply ascending_insert_at.
  - subst es. rewrite elem_of_app, elem_of_cons.
    rewrite <- (take_drop (Z.to_nat i) (entries nd)) at 3. rewrite elem_of_app. tauto.
  - subst es. rewrite <- (take_drop (Z.to_nat i) (entries nd)) at 1.
    rewrite !elem_of_app, elem_of_cons. tauto.
  - intros x Hx. by apply list_lookup_insert_ne.
Qed.

(** X7.  A new key inserted when the root is a full leaf is lost.  insert splits
    the root, keeps writing into the old root object, and counts the entry:
    when it returns, the size is one more, the entry sits in the old root,
    which the tree no longer contains, and no node of the tree carries the
    key. *)
Theorem insert_into_full_root_leaf_is_lost fuel st r nd k (v : value V) :
  root st = Some r → heap st !! r = Some nd → children nd = [] →
  entries nd ≠ [] → isFull nd (order st) = true →
  (∀ e, e ∈ entries nd → e_key e ≠ k) →
  ∃ st' nd',
    insert (S fuel) st k v = Returned st' ∧
    size st' = wrap64 (size st + 1) ∧
    root st' = Some (S (S (length (heap st)))) ∧
    heap st' !! r = Some nd' ∧ Entry k v ∈ entries nd' ∧
    ¬ reachable st' r ∧
    (∀ a nda e, reachable st' a → heap st' !! a = Some nda →
                e ∈ entries nda → e_key e ≠ k).
Proof.
  intros Hroot Hr Hleaf Hne Hfull Habs.
  destruct (search_absent (entries nd) k Habs) as (i & Hsr & Hi).
  destruct (split_eq st r nd Hr Hne) as (emid & Hemid & Hsp).
  set (es := take (Z.to_nat i) (entries nd) ++ Entry k v :: drop (Z.to_nat i) (entries nd)).
  assert (Hins : insert_at (entries nd) i (Entry k v) = Returned es).
  { unfold insert_at. destruct (Z.ltb_spec i 0); [lia|].
    by destruct (Z.ltb_spec (len (entries nd)) i); [lia|]. }
  pose proof (lookup_lt_Some _ _ _ Hr) as Hlt.
  set (h1 := heap st ++ split_objects r nd emid (length (heap st))).
  set (st' := State (<[r := set_entries nd es]> h1)
                (Some (S (S (length (heap st))))) (wrap64 (size st + 1)) (order st)).
  assert (Hg : grows (heap st) (heap st')).
  { simpl. eapply (grows_update _ _ _ nd); [by apply grows_split| |done..].
    by apply lookup_app_l_Some. }
  assert (Hnew : ∀ a, reachable st' a → (length (heap st) ≤ a)%nat).
  { intros a (m & Hm & Hreach). simpl in Hm. injection Hm as <-.
    destruct (reach_grows _ _ _ _ Hg Hreach) as [H1 _]. apply H1. lia. }
  exists st', (set_entries nd es).
  split.
  { unfold insert. rewrite Hroot. simpl. rewrite Hroot.
    destruct (decide (Some r = Some r)); [|done]. apply load_Returned in Hr as Hl.
    rewrite Hl. simpl. rewrite Hfull. rewrite Hsp.
    cbn -[Nat.div search insert_at isLeaf load].
    assert (Hl1 : ∀ new, load (heap st ++ new) r = Returned nd)
      by (intros new; apply load_Returned; by apply lookup_app_l_Some).
    rewrite Hl1. cbn -[Nat.div search insert_at isLeaf load].
    rewrite Hsr. cbn -[Nat.div search insert_at isLeaf load].
    apply isLeaf_true in Hleaf. rewrite Hleaf. by rewrite Hins. }
  split; [done|]. split; [done|]. split.
  { simpl. apply list_lookup_insert_eq. subst h1. rewrite length_app. lia. }
  split.
  { simpl. subst es. rewrite elem_of_app, elem_of_cons. auto. }
  split.
  { intros Hreach. apply Hnew in Hreach. lia. }
  intros a nda e Hreach Ha He. apply Hnew in Hreach. simpl in Ha.
  rewrite list_lookup_insert_ne in Ha by lia. subst h1.
  rewrite lookup_app_r in Ha by done.
  apply list_elem_of_lookup_2, split_objects_inv in Ha as [-> | [-> | ->]];
    cbn [entries] in He.
  - apply Habs. by eapply subseteq_take.
  - apply Habs. by eapply subseteq_drop.
  - apply list_elem_of_singleton in He as ->. simpl. apply Habs.
    by eapply list_elem_of_lookup_2.
Qed.

(** ** The elementary moves of insertNode and removeNode *)

Lemma set_root_same st : set_root st (root st) = st.
Proof. by destruct st. Qed.

Lemma store_same st a nd : heap st !! a = Some nd → store st a nd = st.
Proof.
  intros H. unfold store, set_heap. rewrite list_insert_id by done. by destruct st.
Qed.

Lemma set_children_same nd : set_children nd (children nd) = nd.
Proof. by destruct nd. Qed.

Lemma split_empty st a nd :
  heap st !! a = Some nd → entries nd = [] → split st a = Returned (st, a).
Proof.
  intros Ha He. unfold split. apply load_Returned in Ha. rewrite Ha. simpl.
  by rewrite He.
Qed.

(** Whatever [insertNode] does to the state is a chain of four moves: two
    kinds of split (of the root, of the child about to be entered), then
    either an overwrite or an insertion into a leaf.  A property [P] that
    the splits keep, and that the two final moves turn into [Q], therefore
    gives [Q] whenever [insertNode] returns. *)
Lemma insertNode_moves (P Q : state V → Prop) (e : entry V) :
  (∀ st a nd idx, P st → heap st !! a = Some nd →
     search (entries nd) (e_key e) = Returned (idx, true) →
     0 ≤ idx < len (entries nd) →
     Q (store st a (set_entries nd (<[Z.to_nat idx := e]> (entries nd))))) →
  (∀ st a nd idx es, P st → heap st !! a = Some nd → children nd = [] →
     search (entries nd) (e_key e) = Returned (idx, false) →
     insert_at (entries nd) idx e = Returned es →
     Q (set_size (store st a (set_entries nd es)) (wrap64 (size st + 1)))) →
  (∀ st a nd emid, P st → root st = Some a → heap st !! a = Some nd →
     isFull nd (order st) = true →
     entries nd !! (length (entries nd) / 2)%nat = Some emid →
     P (set_root (set_heap st
          (heap st ++ split_objects a nd emid (length (heap st))))
          (Some (S (S (length (heap st))))))) →
  (∀ st a nd (idx : nat) c cn emid, P st → heap st !! a = Some nd →
     children nd !! idx = Some c → heap st !! c = Some cn →
     isFull cn (order st) = true →
     entries cn !! (length (entries cn) / 2)%nat = Some emid →
     P (store (set_heap st
          (heap st ++ split_objects c cn emid (length (heap st))))
          a (set_children nd (<[idx := S (S (length (heap st)))]> (children nd))))) →
  ∀ fuel st a st' b,
    P st → insertNode fuel st a e = Returned (st', b) → Q st'.
Proof.
  intros H1 H2 H3 H4.
  induction fuel as [|fuel IH]; intros st a st' b HP H; [done|].
  simpl in H. apply bind_Returned in H as (st1 & Hst1 & H).
  assert (HP1 : P st1).
  { destruct (decide (Some a = root st)) as [Hr|Hr]; [|by injection Hst1 as <-].
    apply bind_Returned in Hst1 as (nd & Hnd & Hst1). apply load_Returned in Hnd.
    destruct (isFull nd (order st)) eqn:Hfull; [|by injection Hst1 as <-].
    apply bind_Returned in Hst1 as ([st2 m] & Hsp & Hst1). injection Hst1 as <-.
    destruct (entries nd) as [|e0 es0] eqn:Ees.
    - rewrite (split_empty st a nd) in Hsp by done. injection Hsp as <- <-.
      rewrite Hr. by rewrite set_root_same.
    - destruct (split_eq st a nd Hnd) as (emid & Hemid & Hsp'); [by rewrite Ees|].
      rewrite Hsp' in Hsp. injection Hsp as <- <-.
      apply (H3 st a nd emid); done. }
  clear Hst1 HP. 
  apply bind_Returned in H as (nd & Hnd & H). apply load_Returned in Hnd.
  apply bind_Returned in H as ([idx found] & Hs & H).
  destruct found.
  { apply bind_Returned in H as (x & Hx & H). injection H as <- <-.
    apply index_Returned in Hx as [Hx0 Hx]. apply lookup_lt_Some in Hx.
    apply H1; [done..|]. unfold len. lia. }
  destruct (isLeaf nd) eqn:Hl.
  { apply bind_Returned in H as (es & Hes & H). injection H as <- <-.
    apply isLeaf_true in Hl. by eapply H2. }
  apply bind_Returned in H as (c & Hc & H). apply index_Returned in Hc as [_ Hc].
  apply bind_Returned in H as (cn & Hcn & H). apply load_Returned in Hcn.
  apply bind_Returned in H as (st2 & Hst2 & H).
  assert (HP2 : P st2).
  { destruct (isFull cn (order st1)) eqn:Hfull; [|by injection Hst2 as <-].
    apply bind_Returned in Hst2 as ([st3 m] & Hsp & Hst2).
    apply bind_Returned in Hst2 as (nd' & Hnd' & Hst2). injection Hst2 as <-.
    apply load_Returned in Hnd'.
    destruct (entries cn) as [|e0 es0] eqn:Ees.
    - rewrite (split_empty st1 c cn) in Hsp by done. injection Hsp as <- <-.
      assert (nd' = nd) as -> by congruence.
      rewrite list_insert_id by done. rewrite set_children_same.
      by rewrite store_same.
    - destruct (split_eq st1 c cn Hcn) as (emid & Hemid & Hsp'); [by rewrite Ees|].
      rewrite Hsp' in Hsp. injection Hsp as <- <-.
      simpl in Hnd'. rewrite lookup_app_l in Hnd' by (by eapply lookup_lt_Some).
      assert (nd' = nd) as -> by congruence.
      apply (H4 st1 a nd (Z.to_nat idx) c cn emid); done. }
  clear Hst2.
  apply bind_Returned in H as (nd' & _ & H).
  apply bind_Returned in H as (c' & _ & H).
  by eapply IH.
Qed.

(** [removeNode] on a store that satisfies the local invariant changes it,
    if at all, by one move: it cuts an entry out of a leaf. *)
Lemma removeNode_moves (P : state V → Prop) (k : key) :
  (∀ st a nd idx es, P st → heap st !! a = Some nd → children nd = [] →
     delete_at (entries nd) idx = Returned es →
     P (set_size (store st a (set_entries nd es)) (wrap64 (size st - 1)))) →
  ∀ fuel st a st' b,
    local_inv (heap st) → P st →
    removeNode fuel st a k = Returned (st', b) → P st'.
Proof.
  intros Hdel.
  induction fuel as [|fuel IH]; intros st a st' b Hloc HP H; [done|].
  simpl in H. apply bind_Returned in H as (nd & Hnd & H). apply load_Returned in Hnd.
  apply bind_Returned in H as ([idx found] & _ & H).
  destruct (isLeaf nd) eqn:Hl; simpl in H.
  - destruct found; simpl in H; [|by injection H as <- <-].
    apply bind_Returned in H as (es & Hes & H). apply isLeaf_true in Hl.
    destruct (isUnderflowed (set_entries nd es) (order st)).
    + exfalso. eapply underflow_not_returned; [|done]. simpl.
      by apply local_inv_set_entries.
    + injection H as <- <-. by eapply Hdel.
  - apply bind_Returned in H as (c & _ & H). by eapply IH.
Qed.

(** ** The shape of the trees that insert builds *)

Lemma full_is_leaf h (a : addr) nd (o : Z) :
  local_inv h → h !! a = Some nd → 2 ≤ o → isFull nd o = true → children nd = [].
Proof.
  intros [Hint _] Ha Ho Hfull. unfold isFull, len in Hfull. apply Z.leb_le in Hfull.
  destruct (children nd) eqn:E; [done|].
  assert (length (entries nd) = 1%nat) by (eapply Hint; [done|by rewrite E]). lia.
Qed.

Lemma binary_set_entries h (a : addr) nd es' :
  binary h → h !! a = Some nd → (children nd ≠ [] → length es' = 1%nat) →
  binary (<[a := set_entries nd es']> h).
Proof.
  intros Hb Ha Hes x ndx Hx Hch. rewrite length_insert.
  pose proof (lookup_lt_Some _ _ _ Ha) as Hlt.
  destruct (decide (a = x)) as [<-|Hne].
  - rewrite list_lookup_insert_eq in Hx by done. injection Hx as <-. simpl in *.
    destruct (Hb a nd Ha Hch) as (_ & H2 & H3). by repeat split; [apply Hes|..].
  - rewrite list_lookup_insert_ne in Hx by done. by apply (Hb x).
Qed.

Lemma binary_app_leaves h (new : list (node V)) :
  binary h →
  (∀ nd, nd ∈ new → children nd ≠ [] →
     length (entries nd) = 1%nat ∧ length (children nd) = 2%nat ∧
     ∀ c, c ∈ children nd → (c < length h + length new)%nat) →
  binary (h ++ new).
Proof.
  intros Hb Hnew x ndx Hx Hch. rewrite length_app.
  apply lookup_app_Some in Hx as [Hx|[_ Hx]].
  - destruct (Hb x ndx Hx Hch) as (H1 & H2 & H3). repeat split; [done..|].
    intros c Hc. specialize (H3 c Hc). lia.
  - apply Hnew; [|done]. by eapply list_elem_of_lookup_2.
Qed.

Lemma binary_split h (a : addr) nd emid :
  binary h → children nd = [] →
  binary (h ++ split_objects a nd emid (length h)).
Proof.
  intros Hb Hleaf. apply binary_app_leaves; [done|]. intros ndx Hndx Hch.
  apply split_objects_inv in Hndx as [-> | [-> | ->]]; [done..|].
  cbn [entries children] in *. rewrite Hleaf. simpl. repeat split.
  intros c Hc. rewrite !elem_of_cons, elem_of_nil in Hc. lia.
Qed.

Lemma binary_set_child h (a : addr) nd (idx m : nat) :
  binary h → h !! a = Some nd → (m < length h)%nat →
  binary (<[a := set_children nd (<[idx := m]> (children nd))]> h).
Proof.
  intros Hb Ha Hm x ndx Hx Hch. rewrite length_insert.
  pose proof (lookup_lt_Some _ _ _ Ha) as Hlt.
  destruct (decide (a = x)) as [<-|Hne].
  - rewrite list_lookup_insert_eq in Hx by done. injection Hx as <-.
    cbn [entries children set_children] in *.
    assert (Hch0 : children nd ≠ []).
    { intros E. rewrite E in Hch. by destruct idx. }
    destruct (Hb a nd Ha Hch0) as (H1 & H2 & H3).
    rewrite length_insert. repeat split; [done..|].
    intros c Hc. apply list_elem_of_lookup_1 in Hc as [j Hj].
    apply list_lookup_insert_Some in Hj as [(_ & <- & _)|[_ Hj]]; [done|].
    apply H3. by eapply list_elem_of_lookup_2.
  - rewrite list_lookup_insert_ne in Hx by done. by apply (Hb x).
Qed.

(** The local invariant and the binary shape, for an order of at least 2. *)
Lemma insertNode_shape fuel st a e st' b :
  2 ≤ order st → local_inv (heap st) → binary (heap st) →
  insertNode fuel st a e = Returned (st', b) →
  2 ≤ order st' ∧ local_inv (heap st') ∧ binary (heap st').
Proof.
  intros Ho Hloc Hbin H.
  apply (insertNode_moves
           (λ s, 2 ≤ order s ∧ local_inv (heap s) ∧ binary (heap s))
           (λ s, 2 ≤ order s ∧ local_inv (heap s) ∧ binary (heap s))
           e) with (fuel := fuel) (st := st) (a := a) (b := b);
    [| | | |split; [done|split; done]|done].
  - intros s x nd idx (Ho' & Hl & Hb) Hx _ _. simpl. split; [done|].
    destruct Hl as [Hint Hpar].
    split; [apply local_inv_set_entries|apply binary_set_entries];
      try done; try (by split);
      intros Hch; rewrite length_insert; by eapply Hint.
  - intros s x nd idx es (Ho' & Hl & Hb) Hx Hleaf _ _. simpl. split; [done|].
    split; [by apply local_inv_set_entries|by apply binary_set_entries].
  - intros s x nd emid (Ho' & Hl & Hb) _ Hx Hfull _. simpl. split; [done|].
    assert (children nd = []) by by eapply full_is_leaf.
    split; [by apply local_inv_split|by apply binary_split].
  - intros s x nd idx c cn emid (Ho' & Hl & Hb) Hx Hc Hcn Hfull _. simpl.
    split; [done|].
    assert (children cn = []) by by eapply full_is_leaf.
    assert (children nd ≠ []) by (intros E; by rewrite E in Hc).
    split.
    + apply local_inv_set_children; [by apply local_inv_split| |done].
      by apply lookup_app_l_Some.
    + apply binary_set_child; [by apply binary_split| |].
      * by apply lookup_app_l_Some.
      * rewrite length_app. simpl. lia.
Qed.

Lemma removeNode_shape fuel st a k st' b :
  2 ≤ order st → local_inv (heap st) → binary (heap st) →
  removeNode fuel st a k = Returned (st', b) →
  2 ≤ order st' ∧ local_inv (heap st') ∧ binary (heap st').
Proof.
  intros Ho Hloc Hbin H.
  apply (removeNode_moves
           (λ s, 2 ≤ order s ∧ local_inv (heap s) ∧ binary (heap s)) k)
    with (fuel := fuel) (st := st) (a := a) (b := b);
    [|done|split; [done|split; done]|done].
  intros s x nd idx es (Ho' & Hl & Hb) Hx Hleaf _. simpl. split; [done|].
  split; [by apply local_inv_set_entries|by apply binary_set_entries].
Qed.

Lemma step_shape fuel st (o : op V) st' :
  2 ≤ order st → local_inv (heap st) → binary (heap st) →
  step fuel st o = Returned st' →
  2 ≤ order st' ∧ local_inv (heap st') ∧ binary (heap st').
Proof.
  intros Ho Hloc Hbin H. destruct o; simpl in H.
  - apply bind_Returned in H as (? & _ & H). by injection H as <-.
  - unfold insert in H. destruct (root st) as [r|].
    + apply bind_Returned in H as ([st1 b] & Hin & H). injection H as <-.
      by eapply insertNode_shape.
    + injection H as <-. simpl. split; [done|].
      split; [by apply local_inv_alloc_leaf|].
      apply binary_app_leaves; [done|]. intros nd Hnd Hch.
      by apply list_elem_of_singleton in Hnd as ->.
  - apply bind_Returned in H as ([st1 b] & Hrm & H). injection H as <-.
    unfold remove in Hrm. destruct (root st) as [r|].
    + by eapply removeNode_shape.
    + by injection Hrm as <- <-.
  - apply bind_Returned in H as (? & _ & H). by injection H as <-.
  - done.
  - done.
  - done.
Qed.

Lemma run_shape fuel (ops : list (op V)) :
  ∀ st st', 2 ≤ order st → local_inv (heap st) → binary (heap st) →
            run fuel st ops = Returned st' →
            2 ≤ order st' ∧ local_inv (heap st') ∧ binary (heap st').
Proof.
  induction ops as [|o ops IH]; intros st st' Ho Hloc Hbin H; simpl in H.
  - by injection H as <-.
  - apply bind_Returned in H as (st1 & Hstep & H).
    destruct (step_shape _ _ _ _ Ho Hloc Hbin Hstep) as (Ho1 & Hloc1 & Hbin1).
    by eapply IH.
Qed.

Lemma shape_newBtreeOrder (o : Z) :
  local_inv (heap (newBtreeOrder o : state V)) ∧
  binary (heap (newBtreeOrder o : state V)).
Proof.
  split; [split|]; simpl.
  - intros a nd Ha. by rewrite lookup_nil in Ha.
  - intros a nd p Ha. by rewrite lookup_nil in Ha.
  - intros a nd Ha. by rewrite lookup_nil in Ha.
Qed.

(** X13.  With an order of at least 2, whatever operations have returned, the
    tree is binary above its leaves: every node that has children holds
    exactly one entry and has exactly two children, both allocated.  Only
    leaves ever hold more than one entry. *)
Theorem internal_nodes_are_binary (o : Z) fuel (ops : list (op V)) st :
  2 ≤ o → run fuel (newBtreeOrder o) ops = Returned st →
  ∀ a nd, heap st !! a = Some nd → children nd ≠ [] →
    length (entries nd) = 1%nat ∧ length (children nd) = 2%nat ∧
    ∀ c, c ∈ children nd → is_Some (heap st !! c).
Proof.
  intros Ho Hrun a nd Ha Hch.
  destruct (shape_newBtreeOrder o) as [Hl0 Hb0].
  destruct (run_shape fuel ops (newBtreeOrder o) st Ho Hl0 Hb0 Hrun) as (_ & _ & Hbin).
  destruct (Hbin a nd Ha Hch) as (H1 & H2 & H3). repeat split; [done..|].
  intros c Hc. apply lookup_lt_is_Some. by apply H3.
Qed.

(** X14.  With an order of at least 2, whatever operations have returned, a
    parent reference is never what its name says: it is nil or points at an
    object without children (the node that was split, which no node of the
    tree has as a child any more), so no node's parent reference points at
    a node that lists it among its children. *)
Theorem parent_references_are_stale (o : Z) fuel (ops : list (op V)) st :
  2 ≤ o → run fuel (newBtreeOrder o) ops = Returned st →
  (∀ a nd p, heap st !! a = Some nd → parent nd = Some p →
     ∃ pn, heap st !! p = Some pn ∧ children pn = []) ∧
  (∀ a nd c cn, heap st !! a = Some nd → c ∈ children nd →
     heap st !! c = Some cn → parent cn ≠ Some a).
Proof.
  intros Ho Hrun.
  destruct (shape_newBtreeOrder o) as [Hl0 Hb0].
  destruct (run_shape fuel ops (newBtreeOrder o) st Ho Hl0 Hb0 Hrun)
    as (_ & [_ Hpar] & _).
  split; [done|]. intros a nd c cn Ha Hc Hcn Hp.
  destruct (Hpar c cn a Hcn Hp) as (pn & Hpn & Hleaf).
  assert (pn = nd) as -> by congruence. rewrite Hleaf in Hc.
  by apply elem_of_nil in Hc.
Qed.

(** ** Sorted nodes *)

Lemma sorted_within_mono h (ok ok' : key → Prop) :
  sorted_within h ok → (∀ x, ok x → ok' x) → sorted_within h ok'.
Proof.
  intros Hs Hm a nd Ha. destruct (Hs a nd Ha) as [H1 H2]. split; [done|].
  intros e He. by apply Hm, H2.
Qed.

Lemma sorted_within_set_entries h (a : addr) nd es' (ok : key → Prop) :
  sorted_within h ok → ascending (e_key <$> es') = true →
  (∀ e, e ∈ es' → ok (e_key e)) →
  sorted_within (<[a := set_entries nd es']> h) ok.
Proof.
  intros Hs Hasc Hok x ndx Hx.
  apply list_lookup_insert_Some in Hx as [(_ & <- & _)|[_ Hx]]; [done|].
  by apply (Hs x).
Qed.

Lemma sorted_within_set_children h (a : addr) nd cs (ok : key → Prop) :
  sorted_within h ok → h !! a = Some nd →
  sorted_within (<[a := set_children nd cs]> h) ok.
Proof.
  intros Hs Ha x ndx Hx.
  apply list_lookup_insert_Some in Hx as [(_ & <- & _)|[_ Hx]]; [|by apply (Hs x)].
  simpl. by apply (Hs a).
Qed.

Lemma sorted_within_split h (a : addr) nd emid (l : addr) (ok : key → Prop) :
  sorted_within h ok → h !! a = Some nd →
  entries nd !! (length (entries nd) / 2)%nat = Some emid →
  sorted_within (h ++ split_objects a nd emid l) ok.
Proof.
  intros Hs Ha Hemid x ndx Hx. destruct (Hs a nd Ha) as [Hasc Hok].
  apply lookup_app_Some in Hx as [Hx|[_ Hx]]; [by apply (Hs x)|].
  destruct (ascending_take_drop _ (length (entries nd) / 2) Hasc) as (Ht & Hd & _).
  apply list_elem_of_lookup_2, split_objects_inv in Hx as [-> | [-> | ->]];
    cbn [entries].
  - rewrite fmap_take. split; [done|]. intros e He. by (apply Hok; eapply subseteq_take).
  - rewrite fmap_drop. split; [done|]. intros e He. by (apply Hok; eapply subseteq_drop).
  - split; [done|]. intros e He. apply list_elem_of_singleton in He as ->. simpl.
    apply Hok. by eapply list_elem_of_lookup_2.
Qed.

Lemma insertNode_sorted fuel st a k (v : value V) st' b (ok : key → Prop) :
  sorted_within (heap st) ok → ¬ ok k →
  insertNode fuel st a (Entry k v) = Returned (st', b) →
  sorted_within (heap st') (λ x, x = k ∨ ok x).
Proof.
  intros Hs Hk H.
  apply (insertNode_moves (λ s, sorted_within (heap s) ok)
           (λ s, sorted_within (heap s) (λ x, x = k ∨ ok x)) (Entry k v))
    with (fuel := fuel) (st := st) (a := a) (b := b); [| | | |done|done].
  - intros s x nd idx HP Hx Hsr _. exfalso. simpl in Hsr.
    destruct (search_returns (entries nd) k) as (i & f & Hsr' & _ & Hf).
    rewrite Hsr in Hsr'. injection Hsr' as <- <-.
    destruct (Hf eq_refl) as (_ & e & He & Hek). apply Hk.
    destruct (HP x nd Hx) as [_ Hok]. rewrite <- Hek. apply Hok.
    by eapply list_elem_of_lookup_2.
  - intros s x nd idx es HP Hx _ Hsr Hins. simpl in *.
    destruct (HP x nd Hx) as [Hasc Hok].
    destruct (search_miss_partition _ _ _ Hasc Hsr) as [Hlo Hhi].
    apply sorted_within_set_entries.
    + eapply sorted_within_mono; [done|]. by right.
    + by eapply ascending_insert_at.
    + unfold insert_at in Hins.
      destruct ((idx <? 0) || (len (entries nd) <? idx)); [done|].
      injection Hins as <-. intros e He.
      apply elem_of_app in He as [He|He]; [right; by (apply Hok; eapply subseteq_take)|].
      apply elem_of_cons in He as [->|He]; [by left|].
      right. by (apply Hok; eapply subseteq_drop).
  - intros s x nd emid HP _ Hx _ Hemid. simpl. by apply sorted_within_split.
  - intros s x nd idx c cn emid HP Hx _ Hcn _ Hemid. simpl.
    apply sorted_within_set_children; [by apply sorted_within_split|].
    by apply lookup_app_l_Some.
Qed.

Lemma removeNode_sorted fuel st a k st' b (ok : key → Prop) :
  local_inv (heap st) → sorted_within (heap st) ok →
  removeNode fuel st a k = Returned (st', b) →
  sorted_within (heap st') ok.
Proof.
  intros Hloc Hs H.
  apply (removeNode_moves (λ s, sorted_within (heap s) ok) k)
    with (fuel := fuel) (st := st) (a := a) (b := b); [|done..].
  intros s x nd idx es HP Hx _ Hdel. simpl.
  destruct (HP x nd Hx) as [Hasc Hok].
  apply sorted_within_set_entries; [done|by eapply ascending_delete_at|].
  unfold delete_at in Hdel.
  destruct ((idx <? 0) || (len (entries nd) <? idx + 1)); [done|].
  injection Hdel as <-. intros e He.
  apply elem_of_app in He as [He|He];
    [by (apply Hok; eapply subseteq_take)|by (apply Hok; eapply subseteq_drop)].
Qed.

Lemma distinct_cons (k : key) (ks : list key) :
  distinct (k :: ks) = true → (k ∉ ks) ∧ distinct ks = true.
Proof.
  simpl. intros H. apply andb_true_iff in H as [H1 H2]. split; [|done].
  intros Hin. apply negb_true_iff in H1.
  assert (existsb (Z.eqb k) ks = true); [|congruence].
  apply existsb_exists. exists k. split; [by apply list_elem_of_In|apply Z.eqb_refl].
Qed.

Lemma run_sorted fuel (ops : list (op V)) :
  ∀ st st' (ok : key → Prop),
    2 ≤ order st → local_inv (heap st) → binary (heap st) →
    sorted_within (heap st) ok →
    distinct (inserted_keys ops) = true →
    (∀ k, k ∈ inserted_keys ops → ¬ ok k) →
    run fuel st ops = Returned st' →
    sorted_within (heap st') (λ x, ok x ∨ x ∈ inserted_keys ops).
Proof.
  induction ops as [|o ops IH]; intros st st' ok Ho Hloc Hbin Hs Hd Hnew H;
    simpl in H.
  - injection H as <-. eapply sorted_within_mono; [done|]. by left.
  - apply bind_Returned in H as (st1 & Hstep & H).
    destruct (step_shape _ _ _ _ Ho Hloc Hbin Hstep) as (Ho1 & Hloc1 & Hbin1).
    destruct o as [k|k v|k|l|k l|k l|lo hi l]; simpl in Hstep, Hd, Hnew |- *;
      try done.
    + apply bind_Returned in Hstep as (? & _ & Hstep). injection Hstep as <-.
      by eapply IH.
    + apply distinct_cons in Hd as [Hk Hd].
      assert (Hs1 : sorted_within (heap st1) (λ x, x = k ∨ ok x)).
      { unfold insert in Hstep. destruct (root st) as [r|].
        - apply bind_Returned in Hstep as ([st2 b] & Hin & Hstep).
          injection Hstep as <-. eapply insertNode_sorted; [done| |done].
          apply Hnew. by left.
        - injection Hstep as <-. simpl. intros x ndx Hx.
          apply lookup_app_Some in Hx as [Hx|[_ Hx]].
          + destruct (Hs x ndx Hx) as [H1 H2]. split; [done|]. intros e He.
            right. by apply H2.
          + apply list_elem_of_lookup_2, list_elem_of_singleton in Hx as ->.
            split; [done|]. intros e He. apply list_elem_of_singleton in He as ->.
            by left. }
      eapply sorted_within_mono.
      * eapply (IH st1 st' (λ x, x = k ∨ ok x)); [done..| |done].
        intros k' Hk' [->|Hok]; [done|]. eapply Hnew; [|done]. by right.
      * intros x [[->|Hx]|Hx]; [right; by left|by left|right; by right].
    + apply bind_Returned in Hstep as ([st2 b] & Hrm & Hstep). injection Hstep as <-.
      eapply IH; [done..| |done|done|done].
      unfold remove in Hrm. destruct (root st) as [r|].
      * by eapply (removeNode_sorted fuel st r k st2 b).
      * by injection Hrm as <- <-.
    + apply bind_Returned in Hstep as (? & _ & Hstep). injection Hstep as <-.
      by eapply IH.
Qed.

(** X15.  With an order of at least 2, as long as no key is inserted twice, every
    node ever allocated keeps its keys strictly ascending, and holds no key
    that was not inserted. *)
Theorem distinct_inserts_keep_nodes_sorted (o : Z) fuel (ops : list (op V)) st :
  2 ≤ o → distinct (inserted_keys ops) = true →
  run fuel (newBtreeOrder o) ops = Returned st →
  all_ascending (heap st) = true ∧
  ∀ a nd e, heap st !! a = Some nd → e ∈ entries nd →
            e_key e ∈ inserted_keys ops.
Proof.
  intros Ho Hd Hrun.
  destruct (shape_newBtreeOrder o) as [Hl0 Hb0].
  assert (Hs : sorted_within (heap st) (λ x, False ∨ x ∈ inserted_keys ops)).
  { eapply (run_sorted fuel ops (newBtreeOrder o) st (λ _, False));
      [done|done|done| |done| |done].
    - intros a nd Ha. simpl in Ha. by rewrite lookup_nil in Ha.
    - by intros k _ []. }
  split.
  - unfold all_ascending. apply forallb_forall. intros nd Hnd.
    apply list_elem_of_In, list_elem_of_lookup_1 in Hnd as [a Ha].
    by destruct (Hs a nd Ha).
  - intros a nd e Ha He. destruct (Hs a nd Ha) as [_ Hok].
    by destruct (Hok e He).
Qed.

(** ** What get and remove do to the key they are given *)

Lemma all_ascending_lookup h (a : addr) nd :
  all_ascending h = true → h !! a = Some nd →
  ascending (e_key <$> entries nd) = true.
Proof.
  unfold all_ascending. rewrite forallb_forall. intros H Ha.
  apply H, list_elem_of_In. by eapply list_elem_of_lookup_2.
Qed.

Lemma getNode_found_larger fuel :
  ∀ st a k r,
    all_ascending (heap st) = true →
    getNode fuel st a k = Returned (r, true) →
    ∃ e, r = Some e ∧ k < e_key e.
Proof.
  induction fuel as [|fuel IH]; intros st a k r Hasc H; [done|].
  simpl in H. apply bind_Returned in H as (nd & Hnd & H). apply load_Returned in Hnd.
  apply bind_Returned in H as ([i found] & Hs & H).
  destruct found.
  - apply bind_Returned in H as (e & He & H). injection H as <-.
    apply index_Returned in He as [_ He].
    destruct (search_returns (entries nd) k) as (i' & f & Hs' & _ & Hf).
    rewrite Hs in Hs'. injection Hs' as <- <-.
    destruct (Hf eq_refl) as (Hi & e0 & He0 & Hk).
    exists e. split; [done|]. rewrite <- Hk.
    eapply (ascending_lookup (e_key <$> entries nd) (Z.to_nat (i - 1)) (Z.to_nat i));
      [by eapply all_ascending_lookup|lia|..].
    + by rewrite list_lookup_fmap, He0.
    + by rewrite list_lookup_fmap, He.
  - destruct (len (children nd) <? i); [done|].
    apply bind_Returned in H as (c & _ & H). by eapply IH.
Qed.

(** X16.  When every node has ascending keys, get never hands back the entry it
    was asked for: whenever it reports exists = true, the entry it returns
    carries a key strictly larger than the requested one. *)
Theorem get_returns_a_larger_key fuel st k (r : option (entry V)) :
  all_ascending (heap st) = true →
  get fuel st k = Returned (r, true) →
  ∃ e, r = Some e ∧ k < e_key e.
Proof.
  intros Hasc H. unfold get in H. destruct (root st) as [rt|]; [|done].
  apply bind_Returned in H as (nd & _ & H).
  destruct (len (entries nd) =? 0); [done|]. by eapply getNode_found_larger.
Qed.

Lemma removeNode_keeps_key fuel :
  ∀ st a k st',
    local_inv (heap st) →
    removeNode fuel st a k = Returned (st', true) →
    ∃ leaf nd nd' e,
      reach (heap st) a leaf ∧ heap st !! leaf = Some nd ∧
      heap st' !! leaf = Some nd' ∧ children nd' = children nd ∧
      children nd' = [] ∧
      e ∈ entries nd' ∧ e_key e = k ∧
      (∀ x, x ≠ leaf → heap st' !! x = heap st !! x).
Proof.
  induction fuel as [|fuel IH]; intros st a k st' Hloc H; [done|].
  simpl in H. apply bind_Returned in H as (nd & Hnd & H). apply load_Returned in Hnd.
  apply bind_Returned in H as ([idx found] & Hs & H).
  destruct (isLeaf nd) eqn:Hl; simpl in H.
  - destruct found; simpl in H; [|done].
    apply bind_Returned in H as (es & Hes & H). apply isLeaf_true in Hl.
    destruct (isUnderflowed (set_entries nd es) (order st)).
    { exfalso. eapply underflow_not_returned; [|done]. simpl.
      by apply local_inv_set_entries. }
    injection H as <-.
    destruct (search_returns (entries nd) k) as (i' & f & Hs' & _ & Hf).
    rewrite Hs in Hs'. injection Hs' as <- <-.
    destruct (Hf eq_refl) as (Hi & e & He & Hk).
    exists a, nd, (set_entries nd es), e. simpl.
    pose proof (lookup_lt_Some _ _ _ Hnd) as Hlt.
    split; [apply reach_refl|]. split; [done|].
    split; [by apply list_lookup_insert_eq|]. split; [done|]. split; [done|]. split.
    + unfold delete_at in Hes.
      destruct ((idx <? 0) || (len (entries nd) <? idx + 1)); [done|].
      injection Hes as <-. apply elem_of_app. left. apply elem_of_take.
      exists (Z.to_nat (idx - 1)). split; [done|lia].
    + split; [done|]. intros x Hx. by apply list_lookup_insert_ne.
  - apply bind_Returned in H as (c & Hc & H). apply index_Returned in Hc as [_ Hc].
    destruct (IH st c k st' Hloc H) as (leaf & ndl & ndl' & e & Hr & Hrest).
    exists leaf, ndl, ndl', e. split; [|done].
    eapply reach_child; [done|by eapply list_elem_of_lookup_2|done].
Qed.

(** X17.  With an order of at least 2, on any tree that the operations have
    built, a remove that returns true has not removed the key: an entry with
    that key is still in a leaf (a node without children) of the tree
    afterwards. *)
Theorem remove_true_keeps_the_key (o : Z) fuel (ops : list (op V)) st fuel' k st' :
  2 ≤ o → run fuel (newBtreeOrder o) ops = Returned st →
  remove fuel' st k = Returned (st', true) →
  ∃ leaf nd' e,
    reachable st' leaf ∧ heap st' !! leaf = Some nd' ∧ children nd' = [] ∧
    e ∈ entries nd' ∧ e_key e = k.
Proof.
  intros Ho Hrun Hrm.
  destruct (shape_newBtreeOrder o) as [Hl0 Hb0].
  destruct (run_shape fuel ops (newBtreeOrder o) st Ho Hl0 Hb0 Hrun) as (_ & Hloc & _).
  unfold remove in Hrm. destruct (root st) as [r|] eqn:Hroot; [|done].
  pose proof (removeNode_frame _ _ _ _ _ _ Hrm) as (_ & Hr' & _).
  destruct (removeNode_keeps_key _ _ _ _ _ Hloc Hrm)
    as (leaf & nd & nd' & e & Hreach & Hnd & Hnd' & Hch & Hleaf & He & Hk & Hoth).
  exists leaf, nd', e. split; [|done].
  exists r. split; [congruence|].
  eapply reach_upto; [|done]. intros x ndx Hx Hndx.
  exists ndx. split; [|done]. by rewrite Hoth.
Qed.

Lemma removeNode_cut fuel :
  ∀ st a k st',
    local_inv (heap st) →
    removeNode fuel st a k = Returned (st', true) →
    ∃ leaf nd nd',
      reach (heap st) a leaf ∧ heap st !! leaf = Some nd ∧ children nd = [] ∧
      heap st' !! leaf = Some nd' ∧
      parent nd' = parent nd ∧ children nd' = [] ∧
      len (entries nd') = len (entries nd) - 1 ∧
      ceil_half (order st) ≤ len (entries nd') ∧
      (∀ x, x ≠ leaf → heap st' !! x = heap st !! x).
Proof.
  induction fuel as [|fuel IH]; intros st a k st' Hloc H; [done|].
  simpl in H. apply bind_Returned in H as (nd & Hnd & H). apply load_Returned in Hnd.
  apply bind_Returned in H as ([idx found] & Hs & H).
  destruct (isLeaf nd) eqn:Hl; simpl in H.
  - destruct found; simpl in H; [|done].
    apply bind_Returned in H as (es & Hes & H). apply isLeaf_true in Hl.
    destruct (isUnderflowed (set_entries nd es) (order st)) eqn:Hu.
    { exfalso. eapply underflow_not_returned; [|done]. simpl.
      by apply local_inv_set_entries. }
    injection H as <-. apply delete_at_length in Hes.
    unfold isUnderflowed in Hu. simpl in Hu. apply Z.ltb_ge in Hu.
    exists a, nd, (set_entries nd es). simpl.
    pose proof (lookup_lt_Some _ _ _ Hnd) as Hlt.
    split; [apply reach_refl|]. split; [done|]. split; [done|].
    split; [by apply list_lookup_insert_eq|].
    repeat split; try done. intros x Hx. by apply list_lookup_insert_ne.
  - apply bind_Returned in H as (c & Hc & H). apply index_Returned in Hc as [_ Hc].
    destruct (IH st c k st' Hloc H) as (leaf & ndl & ndl' & Hr & Hrest).
    exists leaf, ndl, ndl'. split; [|done].
    eapply reach_child; [done|by eapply list_elem_of_lookup_2|done].
Qed.

(** X18.  With an order of at least 2, on any tree that the operations have
    built, a remove that returns true has changed exactly one node, a leaf
    of the tree: the leaf is one entry shorter, keeps its parent reference,
    and still holds at least ceil(order/2) entries.  No remove ever returns
    from the underflow branch. *)
Theorem remove_true_cuts_one_leaf (o : Z) fuel (ops : list (op V)) st fuel' k st' :
  2 ≤ o → run fuel (newBtreeOrder o) ops = Returned st →
  remove fuel' st k = Returned (st', true) →
  ∃ leaf nd nd',
    reachable st leaf ∧ heap st !! leaf = Some nd ∧ children nd = [] ∧
    heap st' !! leaf = Some nd' ∧
    parent nd' = parent nd ∧ children nd' = [] ∧
    len (entries nd') = len (entries nd) - 1 ∧
    ceil_half o ≤ len (entries nd') ∧
    (∀ x, x ≠ leaf → heap st' !! x = heap st !! x).
Proof.
  intros Ho Hrun Hrm.
  destruct (shape_newBtreeOrder o) as [Hl0 Hb0].
  destruct (run_shape fuel ops (newBtreeOrder o) st Ho Hl0 Hb0 Hrun) as (_ & Hloc & _).
  destruct (run_inv fuel ops (newBtreeOrder o) st Ho (inv_newBtreeOrder o) Hrun)
    as [_ Hord]. simpl in Hord.
  unfold remove in Hrm. destruct (root st) as [r|] eqn:Hroot; [|done].
  destruct (removeNode_cut _ _ _ _ _ Hloc Hrm)
    as (leaf & nd & nd' & Hreach & Hrest).
  rewrite Hord in Hrest.
  exists leaf, nd, nd'. split; [|done]. by exists r.
Qed.

Lemma insertNode_overwrite fuel :
  ∀ st a e st',
    insertNode fuel st a e = Returned (st', false) →
    ∃ x nd' (j : nat) e1,
      heap st' !! x = Some nd' ∧
      entries nd' !! j = Some e1 ∧ e_key e1 = e_key e ∧
      entries nd' !! S j = Some e.
Proof.
  induction fuel as [|fuel IH]; intros st a e st' H; [done|].
  simpl in H. apply bind_Returned in H as (st1 & _ & H).
  apply bind_Returned in H as (nd & Hnd & H). apply load_Returned in Hnd.
  apply bind_Returned in H as ([idx found] & Hs & H).
  destruct found.
  - apply bind_Returned in H as (x & Hx & H). injection H as <-.
    apply index_Returned in Hx as [Hx0 Hx]. apply lookup_lt_Some in Hx.
    destruct (search_returns (entries nd) (e_key e)) as (i' & f & Hs' & _ & Hf).
    rewrite Hs in Hs'. injection Hs' as <- <-.
    destruct (Hf eq_refl) as (Hi & e1 & He1 & Hk).
    exists a, (set_entries nd (<[Z.to_nat idx := e]> (entries nd))),
      (Z.to_nat (idx - 1)), e1. simpl.
    split; [apply list_lookup_insert_eq; by eapply lookup_lt_Some|].
    split; [by rewrite list_lookup_insert_ne by lia|]. split; [done|].
    replace (S (Z.to_nat (idx - 1))) with (Z.to_nat idx) by lia.
    by apply list_lookup_insert_eq.
  - destruct (isLeaf nd).
    { apply bind_Returned in H as (es & _ & H). by injection H. }
    apply bind_Returned in H as (c & _ & H).
    apply bind_Returned in H as (cn & _ & H).
    apply bind_Returned in H as (st2 & _ & H).
    apply bind_Returned in H as (nd' & _ & H).
    apply bind_Returned in H as (c' & _ & H).
    by eapply IH.
Qed.

(** X19.  An upsert that returns does not replace the stored entry.  When
    [insertNode] returns inserted = false, some node holds the new entry
    right after an entry with the same key: the old entry is still there,
    and it is the entry that followed it that has been overwritten. *)
Theorem upsert_overwrites_the_next_entry fuel st a e st' :
  insertNode fuel st a e = Returned (st', false) →
  size st' = size st ∧
  ∃ x nd' (j : nat) e1,
    heap st' !! x = Some nd' ∧
    entries nd' !! j = Some e1 ∧ e_key e1 = e_key e ∧
    entries nd' !! S j = Some e.
Proof.
  intros H. split.
  - by apply insertNode_frame in H as (? & _).
  - by eapply insertNode_overwrite.
Qed.

(** ** Where insertNode splits *)

Lemma root_ok_set_entries st (a : addr) nd es' :
  root_ok st → heap st !! a = Some nd →
  root_ok (store st a (set_entries nd es')).
Proof.
  intros Hok Ha r Hr. simpl in *. destruct (Hok r Hr) as [Hlt Hnc].
  rewrite length_insert. split; [done|]. intros x ndx Hx.
  apply list_lookup_insert_Some in Hx as [(_ & <- & _)|[_ Hx]]; [|by eapply Hnc].
  simpl. by eapply Hnc.
Qed.

Lemma binary_children_allocated h (x : addr) ndx (c : addr) :
  binary h → h !! x = Some ndx → c ∈ children ndx → (c < length h)%nat.
Proof.
  intros Hb Hx Hc. destruct (Hb x ndx Hx) as (_ & _ & H); [|by apply H].
  intros E. rewrite E in Hc. by apply elem_of_nil in Hc.
Qed.

Lemma root_ok_root_split st (a : addr) nd emid :
  binary (heap st) → children nd = [] →
  root_ok (set_root (set_heap st
             (heap st ++ split_objects a nd emid (length (heap st))))
             (Some (S (S (length (heap st)))))).
Proof.
  intros Hb Hleaf r Hr. simpl in *. injection Hr as <-.
  rewrite length_app. simpl. split; [lia|]. intros x ndx Hx Hin.
  apply lookup_app_Some in Hx as [Hx|[_ Hx]].
  - pose proof (binary_children_allocated _ _ _ _ Hb Hx Hin). lia.
  - apply list_elem_of_lookup_2, split_objects_inv in Hx as [-> | [-> | ->]];
      cbn [children] in Hin.
    + by apply elem_of_nil in Hin.
    + by apply elem_of_nil in Hin.
    + rewrite Hleaf in Hin. simpl in Hin.
      rewrite !elem_of_cons, elem_of_nil in Hin. lia.
Qed.

Lemma root_ok_child_split st (a : addr) nd (idx : nat) (c : addr) cn emid :
  root_ok st → heap st !! a = Some nd → children cn = [] →
  root_ok (store (set_heap st
             (heap st ++ split_objects c cn emid (length (heap st))))
             a (set_children nd (<[idx := S (S (length (heap st)))]> (children nd)))).
Proof.
  intros Hok Ha Hleaf r Hr. simpl in *. destruct (Hok r Hr) as [Hlt Hnc].
  rewrite length_insert, length_app. split; [lia|]. intros x ndx Hx Hin.
  apply list_lookup_insert_Some in Hx as [(_ & <- & _)|[_ Hx]].
  - cbn [children set_children] in Hin.
    apply list_elem_of_lookup_1 in Hin as [j Hj].
    apply list_lookup_insert_Some in Hj as [(_ & Hm & _)|[_ Hj]]; [lia|].
    eapply Hnc; [done|]. by eapply list_elem_of_lookup_2.
  - apply lookup_app_Some in Hx as [Hx|[_ Hx]]; [by eapply Hnc|].
    apply list_elem_of_lookup_2, split_objects_inv in Hx as [-> | [-> | ->]];
      cbn [children] in Hin.
    + by apply elem_of_nil in Hin.
    + by apply elem_of_nil in Hin.
    + rewrite Hleaf in Hin. simpl in Hin.
      rewrite !elem_of_cons, elem_of_nil in Hin. lia.
Qed.

Lemma tree_inv_set_entries st (a : addr) nd es' :
  tree_inv st → heap st !! a = Some nd →
  (children nd ≠ [] → length es' = 1%nat) →
  tree_inv (store st a (set_entries nd es')).
Proof.
  intros (Ho & Hl & Hb & Hr) Ha Hes. split; [done|].
  split; [by apply local_inv_set_entries|].
  split; [by apply binary_set_entries|by apply root_ok_set_entries].
Qed.

Lemma tree_inv_root_split st (a : addr) nd emid :
  tree_inv st → heap st !! a = Some nd → isFull nd (order st) = true →
  tree_inv (set_root (set_heap st
              (heap st ++ split_objects a nd emid (length (heap st))))
              (Some (S (S (length (heap st)))))).
Proof.
  intros (Ho & Hl & Hb & Hr) Ha Hfull.
  assert (children nd = []) by by eapply full_is_leaf.
  split; [done|]. split; [by apply local_inv_split|].
  split; [by apply binary_split|by apply root_ok_root_split].
Qed.

Lemma tree_inv_child_split st (a : addr) nd (idx : nat) (c : addr) cn emid :
  tree_inv st → heap st !! a = Some nd → children nd !! idx = Some c →
  heap st !! c = Some cn → isFull cn (order st) = true →
  tree_inv (store (set_heap st
              (heap st ++ split_objects c cn emid (length (heap st))))
              a (set_children nd (<[idx := S (S (length (heap st)))]> (children nd)))).
Proof.
  intros (Ho & Hl & Hb & Hr) Ha Hc Hcn Hfull.
  assert (children cn = []) by by eapply full_is_leaf.
  assert (children nd ≠ []) by (intros E; by rewrite E in Hc).
  split; [done|]. split; [|split].
  - apply local_inv_set_children; [by apply local_inv_split| |done].
    by apply lookup_app_l_Some.
  - apply binary_set_child; [by apply binary_split| |].
    + by apply lookup_app_l_Some.
    + simpl. rewrite length_app. simpl. lia.
  - by apply root_ok_child_split.
Qed.

Lemma insertNode_tree_inv fuel st a e st' b :
  tree_inv st → insertNode fuel st a e = Returned (st', b) → tree_inv st'.
Proof.
  intros Hinv H.
  apply (insertNode_moves tree_inv tree_inv e)
    with (fuel := fuel) (st := st) (a := a) (b := b); [| | | |done|done].
  - intros s x nd idx HP Hx _ _. apply tree_inv_set_entries; [done..|].
    intros Hch. rewrite length_insert. destruct HP as (_ & [Hint _] & _).
    by eapply Hint.
  - intros s x nd idx es HP Hx Hleaf _ _.
    by apply (tree_inv_set_entries s x nd es).
  - intros s x nd emid HP _ Hx Hfull _. by apply tree_inv_root_split.
  - intros s x nd idx c cn emid HP Hx Hc Hcn Hfull _.
    by eapply tree_inv_child_split.
Qed.

Lemma removeNode_tree_inv fuel st a k st' b :
  tree_inv st → removeNode fuel st a k = Returned (st', b) → tree_inv st'.
Proof.
  intros Hinv H.
  apply (removeNode_moves tree_inv k)
    with (fuel := fuel) (st := st) (a := a) (b := b); [|apply Hinv|done|done].
  intros s x nd idx es HP Hx Hleaf _.
  by apply (tree_inv_set_entries s x nd es).
Qed.

Lemma step_tree_inv fuel st (o : op V) st' :
  tree_inv st → step fuel st o = Returned st' → tree_inv st'.
Proof.
  intros Hinv H. destruct o; simpl in H.
  - apply bind_Returned in H as (? & _ & H). by injection H as <-.
  - unfold insert in H. destruct (root st) as [r|] eqn:Hroot.
    + apply bind_Returned in H as ([st1 b] & Hin & H). injection H as <-.
      by eapply insertNode_tree_inv.
    + injection H as <-. destruct Hinv as (Ho & Hl & Hb & Hr).
      split; [done|]. split; [by apply local_inv_alloc_leaf|]. split.
      * simpl. apply binary_app_leaves; [done|]. intros nd Hnd Hch.
        by apply list_elem_of_singleton in Hnd as ->.
      * intros r Hr'. simpl in *. injection Hr' as <-. rewrite length_app. simpl.
        split; [lia|]. intros x ndx Hx Hin.
        apply lookup_app_Some in Hx as [Hx|[_ Hx]].
        -- pose proof (binary_children_allocated _ _ _ _ Hb Hx Hin). lia.
        -- apply list_elem_of_lookup_2, list_elem_of_singleton in Hx as ->.
           by apply elem_of_nil in Hin.
  - apply bind_Returned in H as ([st1 b] & Hrm & H). injection H as <-.
    unfold remove in Hrm. destruct (root st) as [r|].
    + by eapply removeNode_tree_inv.
    + by injection Hrm as <- <-.
  - apply bind_Returned in H as (? & _ & H). by injection H as <-.
  - done.
  - done.
  - done.
Qed.

Lemma run_tree_inv fuel (ops : list (op V)) :
  ∀ st st', tree_inv st → run fuel st ops = Returned st' → tree_inv st'.
Proof.
  induction ops as [|o ops IH]; intros st st' Hinv H; simpl in H.
  - by injection H as <-.
  - apply bind_Returned in H as (st1 & Hstep & H).
    eapply IH; [|done]. by eapply step_tree_inv.
Qed.

Lemma tree_inv_newBtreeOrder (o : Z) :
  2 ≤ o → tree_inv (newBtreeOrder o : state V).
Proof.
  intros Ho. destruct (shape_newBtreeOrder o) as [Hl Hb].
  split; [done|]. split; [done|]. split; [done|]. by intros r Hr.
Qed.

(** The first statement of [insertNode] does nothing at a node that is
    not the root, or is not full. *)
Lemma insertNode_no_root_split (e : entry V) fuel st (a : addr) nd :
  heap st !! a = Some nd →
  (root st = Some a → isFull nd (order st) = false) →
  insertNode (S fuel) st a e =
    ('(idx, found) ← search (entries nd) (e_key e);
     if found : bool then
       _ ← index (entries nd) idx;
       Returned (store st a (set_entries nd (<[Z.to_nat idx := e]> (entries nd))), false)
     else if isLeaf nd then
       es ← insert_at (entries nd) idx e;
       Returned (set_size (store st a (set_entries nd es)) (wrap64 (size st + 1)), true)
     else
       c ← index (children nd) idx;
       cn ← load (heap st) c;
       st ← (if isFull cn (order st) then
               '(st', m) ← split st c;
               nd' ← load (heap st') a;
               Returned (store st' a (set_children nd' (<[Z.to_nat idx := m]> (children nd'))))
             else Returned st);
       nd' ← load (heap st) a;
       c' ← index (children nd') idx;
       insertNode fuel st c' e).
Proof.
  intros Ha Hroot. pose proof (proj2 (load_Returned _ _ _) Ha) as Hl.
  cbn [insertNode]. destruct (decide (Some a = root st)) as [Hr|Hr].
  - rewrite Hl. cbn [mbind result_bind]. rewrite Hroot by done.
    cbn [mbind result_bind]. by rewrite Hl.
  - cbn [mbind result_bind]. by rewrite Hl.
Qed.

(** Entering a child that is not full: no split, the call goes on at the
    child in the same state. *)
Lemma insertNode_enter_child (e : entry V) fuel st (a : addr) nd idx (c : addr) cn :
  heap st !! a = Some nd →
  (root st = Some a → isFull nd (order st) = false) →
  search (entries nd) (e_key e) = Returned (idx, false) →
  index (children nd) idx = Returned c → heap st !! c = Some cn →
  isFull cn (order st) = false →
  insertNode (S fuel) st a e = insertNode fuel st c e.
Proof.
  intros Ha Hroot Hs Hc Hcn Hfull.
  rewrite (insertNode_no_root_split e fuel st a nd) by done.
  rewrite Hs. cbn [mbind result_bind].
  assert (isLeaf nd = false) as ->.
  { apply index_Returned in Hc as [_ Hc]. unfold isLeaf, len.
    destruct (children nd); [by rewrite lookup_nil in Hc|done]. }
  rewrite Hc. cbn [mbind result_bind].
  rewrite (proj2 (load_Returned _ _ _) Hcn). cbn [mbind result_bind].
  rewrite Hfull. cbn [mbind result_bind].
  rewrite (proj2 (load_Returned _ _ _) Ha). cbn [mbind result_bind].
  rewrite Hc. done.
Qed.

(** Entering a child that is full: it is split, the node returned by
    [split] takes its place among the children, and the call goes on at
    that node. *)
Lemma insertNode_split_child (e : entry V) st (a : addr) nd idx (c : addr) cn :
  heap st !! a = Some nd →
  (root st = Some a → isFull nd (order st) = false) →
  search (entries nd) (e_key e) = Returned (idx, false) →
  index (children nd) idx = Returned c → heap st !! c = Some cn →
  isFull cn (order st) = true → entries cn ≠ [] →
  ∃ emid, entries cn !! (length (entries cn) / 2)%nat = Some emid ∧
    split st c =
      Returned (set_heap st (heap st ++ split_objects c cn emid (length (heap st))),
                S (S (length (heap st)))) ∧
    ∀ fuel,
      insertNode (S fuel) st a e =
        insertNode fuel
          (store (set_heap st (heap st ++ split_objects c cn emid (length (heap st))))
             a (set_children nd
                  (<[Z.to_nat idx := S (S (length (heap st)))]> (children nd))))
          (S (S (length (heap st)))) e.
Proof.
  intros Ha Hroot Hs Hc Hcn Hfull Hne.
  destruct (split_eq st c cn Hcn Hne) as (emid & Hemid & Hsp).
  exists emid. split; [done|]. split; [done|]. intros fuel.
  rewrite (insertNode_no_root_split e fuel st a nd) by done.
  rewrite Hs. cbn [mbind result_bind].
  assert (isLeaf nd = false) as ->.
  { apply index_Returned in Hc as [_ Hc']. unfold isLeaf, len.
    destruct (children nd); [by rewrite lookup_nil in Hc'|done]. }
  rewrite Hc. cbn [mbind result_bind].
  rewrite (proj2 (load_Returned _ _ _) Hcn). cbn [mbind result_bind].
  rewrite Hfull, Hsp. cbn [mbind result_bind].
  pose proof (lookup_lt_Some _ _ _ Ha) as Hlt.
  assert (Hl : load (heap st ++ split_objects c cn emid (length (heap st))) a
               = Returned nd).
  { apply load_Returned. by apply lookup_app_l_Some. }
  cbn [heap set_heap]. unfold split_objects in Hl |- *. rewrite Hl.
  cbn [mbind result_bind].
  unfold load. cbn [heap store set_heap].
  rewrite list_lookup_insert_eq by (rewrite length_app; lia).
  cbn [mbind result_bind children set_children].
  apply index_Returned in Hc as [Hi Hc'].
  assert (index (<[Z.to_nat idx := S (S (length (heap st)))]> (children nd)) idx
          = Returned (S (S (length (heap st))))) as ->; [|done].
  apply index_Returned. split; [done|].
  apply list_lookup_insert_eq. by eapply lookup_lt_Some.
Qed.

(** An [insertNode] that starts at a node which is not a full root leaves
    the root pointer where it is. *)
Lemma insertNode_keeps_root (e : entry V) fuel :
  ∀ st (a : addr) st' b,
    tree_inv st →
    (root st = Some a → ∀ nd, heap st !! a = Some nd → isFull nd (order st) = false) →
    insertNode fuel st a e = Returned (st', b) → root st' = root st.
Proof.
  induction fuel as [|fuel IH]; intros st a st' b Hinv Hroot H; [done|].
  assert (∃ nd, heap st !! a = Some nd) as [nd Ha].
  { cbn [insertNode] in H. apply bind_Returned in H as (st1 & Hst1 & H).
    destruct (decide (Some a = root st)).
    - apply bind_Returned in Hst1 as (nd & Hnd & _). exists nd.
      by apply load_Returned.
    - injection Hst1 as <-. apply bind_Returned in H as (nd & Hnd & _).
      exists nd. by apply load_Returned. }
  rewrite (insertNode_no_root_split e fuel st a nd) in H
    by (done || (intros Hr; by eapply Hroot)).
  apply bind_Returned in H as ([idx found] & Hs & H).
  destruct found.
  { apply bind_Returned in H as (? & _ & H). by injection H as <- _. }
  destruct (isLeaf nd) eqn:Hleaf.
  { apply bind_Returned in H as (? & _ & H). by injection H as <- _. }
  apply bind_Returned in H as (c & Hc & H).
  apply bind_Returned in H as (cn & Hcn & H). apply load_Returned in Hcn.
  pose proof Hinv as (Ho & Hloc & Hbin & Hrok).
  pose proof Hc as Hc0. apply index_Returned in Hc0 as [Hi Hc'].
  destruct (isFull cn (order st)) eqn:Hfull.
  - assert (Hne : entries cn ≠ []).
    { unfold isFull, len in Hfull. apply Z.leb_le in Hfull.
      intros E. rewrite E in Hfull. simpl in Hfull. lia. }
    destruct (split_eq st c cn Hcn Hne) as (emid & Hemid & Hsp).
    pose proof (tree_inv_child_split st a nd (Z.to_nat idx) c cn emid
                  Hinv Ha Hc' Hcn Hfull) as Hinv1.
    destruct (insertNode_split_child e st a nd idx c cn) as (emid' & Hemid' & _ & Heq);
      [done|(intros Hr; by eapply Hroot)|done..|].
    assert (emid' = emid) as -> by congruence.
    apply bind_Returned in H as (st1 & Hst1 & H).
    rewrite Hsp in Hst1. cbn [mbind result_bind] in Hst1.
    apply bind_Returned in Hst1 as (nd1 & Hnd1 & Hst1).
    cbn [heap set_heap] in Hnd1. apply load_Returned in Hnd1.
    apply lookup_app_Some in Hnd1 as [Hnd1|[Hge _]];
      [|apply lookup_lt_Some in Ha; lia].
    assert (nd1 = nd) as -> by congruence. injection Hst1 as <-.
    apply bind_Returned in H as (nd2 & Hnd2 & H).
    apply bind_Returned in H as (c2 & Hc2 & H).
    apply load_Returned in Hnd2. cbn [heap store set_heap] in Hnd2.
    rewrite list_lookup_insert_eq in Hnd2
      by (rewrite length_app; apply lookup_lt_Some in Ha; lia).
    injection Hnd2 as <-. cbn [children set_children] in Hc2.
    apply index_Returned in Hc2 as [_ Hc2].
    rewrite list_lookup_insert_eq in Hc2 by (by eapply lookup_lt_Some).
    injection Hc2 as <-.
    apply IH in H; [by rewrite H|done|].
    cbn [root store set_heap]. intros Hr. destruct (Hrok _ Hr) as [Hlt _]. lia.
  - cbn [mbind result_bind] in H.
    apply bind_Returned in H as (nd2 & Hnd2 & H). apply load_Returned in Hnd2.
    assert (nd2 = nd) as -> by congruence.
    apply bind_Returned in H as (c2 & Hc2 & H).
    assert (c2 = c) as -> by congruence.
    apply IH in H; [done..|].
    intros Hr. destruct (Hrok _ Hr) as [_ Hnc].
    exfalso. eapply Hnc; [done|]. by eapply list_elem_of_lookup_2.
Qed.

(** An [insertNode] that starts at a full root splits it: the root pointer
    moves to the node that [split] returns, and the three objects of the
    split are in the store afterwards as [split] made them. *)
Lemma insertNode_splits_root (e : entry V) fuel st (r : addr) nd st' b :
  tree_inv st → root st = Some r → heap st !! r = Some nd →
  isFull nd (order st) = true →
  insertNode fuel st r e = Returned (st', b) →
  children nd = [] ∧
  ∃ emid, entries nd !! (length (entries nd) / 2)%nat = Some emid ∧
    split st r =
      Returned (set_heap st (heap st ++ split_objects r nd emid (length (heap st))),
                S (S (length (heap st)))) ∧
    root st' = Some (S (S (length (heap st)))) ∧
    root st' ≠ Some r ∧
    ∀ i obj, split_objects r nd emid (length (heap st)) !! i = Some obj →
             heap st' !! (length (heap st) + i)%nat = Some obj.
Proof.
  intros (Ho & Hloc & Hbin & Hrok) Hr Ha Hfull H.
  assert (Hleaf : children nd = []) by by eapply full_is_leaf.
  split; [done|].
  assert (Hne : entries nd ≠ []).
  { unfold isFull, len in Hfull. apply Z.leb_le in Hfull.
    intros E. rewrite E in Hfull. simpl in Hfull. lia. }
  destruct (split_eq st r nd Ha Hne) as (emid & Hemid & Hsp).
  exists emid. split; [done|]. split; [done|].
  pose proof (lookup_lt_Some _ _ _ Ha) as Hlt.
  destruct fuel as [|fuel]; [done|]. cbn [insertNode] in H.
  destruct (decide (Some r = root st)) as [_|Hn]; [|by rewrite Hr in Hn].
  rewrite (proj2 (load_Returned _ _ _) Ha) in H. cbn [mbind result_bind] in H.
  rewrite Hfull, Hsp in H. cbn [mbind result_bind] in H.
  apply bind_Returned in H as (nd1 & Hnd1 & H).
  cbn [heap set_heap set_root] in Hnd1. apply load_Returned in Hnd1.
  apply lookup_app_Some in Hnd1 as [Hnd1|[Hge _]]; [|lia].
  assert (nd1 = nd) as -> by congruence.
  apply bind_Returned in H as ([idx found] & Hs & H).
  assert (Hst' : root st' = Some (S (S (length (heap st)))) ∧
            ∃ nd', heap st' =
              <[r := nd']> (heap st ++ split_objects r nd emid (length (heap st)))).
  { destruct found.
    - apply bind_Returned in H as (? & _ & H). injection H as <- _.
      split; [done|]. by eexists.
    - rewrite (proj2 (isLeaf_true nd) Hleaf) in H.
      apply bind_Returned in H as (es & _ & H). injection H as <- _.
      split; [done|]. by eexists. }
  destruct Hst' as (Hroot' & nd' & Hheap'). split; [done|]. split.
  - rewrite Hroot'. intros [= E]. lia.
  - intros i obj Hobj. rewrite Hheap'.
    rewrite list_lookup_insert_ne by lia.
    rewrite lookup_app_r by lia.
    by replace (length (heap st) + i - length (heap st))%nat with i by lia.
Qed.

(** C5 (as the code has it).  [isFull], the test that [insertNode] makes
    before it splits the root or the child it is about to enter, holds
    exactly of the nodes with at least [order] entries.  So with an order of
    at least 2, whenever a sequence of public operations on a new tree has
    returned, every node of the tree holds at most [order] entries, and an
    [insertNode] on that tree splits exactly the nodes with at least [order]
    entries:
    - at the root, with fewer entries the root pointer stays; with [order]
      or more the root, a leaf, is split, the root pointer moves to the node
      that [split] returns, and the three objects of the split are in the
      store when [insertNode] returns;
    - at a child about to be entered, in any state of the descent (a state
      of that order whose store satisfies [local_inv]), with fewer entries the call goes on at the child in the same state; with
      [order] or more the child, a leaf, is split, the node that [split]
      returns takes its place in the parent, and the call goes on at that
      node, in a state of the same kind. *)
Theorem occupancy_at_most_order (o : Z) fuel (ops : list (op V)) st :
  2 ≤ o → run fuel (newBtreeOrder o) ops = Returned st →
  order st = o ∧
  (∀ nd, isFull nd (order st) = true ↔ o ≤ len (entries nd)) ∧
  (∀ a nd, reachable st a → heap st !! a = Some nd → len (entries nd) ≤ o) ∧
  local_inv (heap st) ∧
  (∀ (r : addr) nd fuel' e st2 b,
     root st = Some r → heap st !! r = Some nd →
     insertNode fuel' st r e = Returned (st2, b) →
     (len (entries nd) < o → root st2 = Some r) ∧
     (o ≤ len (entries nd) →
        children nd = [] ∧
        ∃ emid, entries nd !! (length (entries nd) / 2)%nat = Some emid ∧
          split st r =
            Returned (set_heap st
                        (heap st ++ split_objects r nd emid (length (heap st))),
                      S (S (length (heap st)))) ∧
          root st2 = Some (S (S (length (heap st)))) ∧
          root st2 ≠ Some r ∧
          ∀ i obj, split_objects r nd emid (length (heap st)) !! i = Some obj →
                   heap st2 !! (length (heap st) + i)%nat = Some obj)) ∧
  (∀ st1 (a : addr) nd idx (c : addr) cn e,
     order st1 = o → local_inv (heap st1) →
     heap st1 !! a = Some nd →
     (root st1 = Some a → len (entries nd) < o) →
     search (entries nd) (e_key e) = Returned (idx, false) →
     index (children nd) idx = Returned c → heap st1 !! c = Some cn →
     (len (entries cn) < o →
        ∀ fuel', insertNode (S fuel') st1 a e = insertNode fuel' st1 c e) ∧
     (o ≤ len (entries cn) →
        children cn = [] ∧
        ∃ emid, entries cn !! (length (entries cn) / 2)%nat = Some emid ∧
          split st1 c =
            Returned (set_heap st1
                        (heap st1 ++ split_objects c cn emid (length (heap st1))),
                      S (S (length (heap st1)))) ∧
          order (store (set_heap st1
                          (heap st1 ++ split_objects c cn emid (length (heap st1))))
                   a (set_children nd
                        (<[Z.to_nat idx := S (S (length (heap st1)))]> (children nd))))
            = o ∧
          local_inv
            (heap (store (set_heap st1
                            (heap st1 ++ split_objects c cn emid (length (heap st1))))
                     a (set_children nd
                          (<[Z.to_nat idx := S (S (length (heap st1)))]> (children nd))))) ∧
          ∀ fuel',
            insertNode (S fuel') st1 a e =
              insertNode fuel'
                (store (set_heap st1
                          (heap st1 ++ split_objects c cn emid (length (heap st1))))
                   a (set_children nd
                        (<[Z.to_nat idx := S (S (length (heap st1)))]> (children nd))))
                (S (S (length (heap st1)))) e)).
Proof.
  intros Ho Hrun.
  destruct (run_inv fuel ops (newBtreeOrder o) st) as [[Hloc Hb] Hord];
    [done|apply inv_newBtreeOrder|done|].
  simpl in Hord.
  pose proof (run_tree_inv fuel ops _ _ (tree_inv_newBtreeOrder o Ho) Hrun) as Hinv.
  assert (Hfull : ∀ nd : node V, isFull nd o = true ↔ o ≤ len (entries nd)).
  { intros nd. unfold isFull. apply Z.leb_le. }
  assert (Hnfull : ∀ nd : node V, len (entries nd) < o → isFull nd o = false).
  { intros nd H. unfold isFull. apply Z.leb_gt. lia. }
  split; [done|]. split; [by rewrite Hord|]. split.
  { intros a nd Hr Ha. rewrite <- Hord. by eapply Hb. }
  split; [done|]. split.
  - intros r nd fuel' e st2 b Hr Ha Hins. split.
    + intros Hlt. rewrite <- Hr.
      apply (insertNode_keeps_root e fuel' st r st2 b); [done| |done].
      intros _ nd0 Hnd0. assert (nd0 = nd) as -> by congruence.
      rewrite Hord. by apply Hnfull.
    + intros Hge.
      apply (insertNode_splits_root e fuel' st r nd st2 b); [done..| |done].
      rewrite Hord. by apply Hfull.
  - intros st1 a nd idx c cn e Hord1 Hloc1 Ha Hroot Hs Hc Hcn. split.
    + intros Hlt fuel'.
      apply (insertNode_enter_child e fuel' st1 a nd idx c cn); try done.
      * intros Hr. rewrite Hord1. by apply Hnfull, Hroot.
      * rewrite Hord1. by apply Hnfull.
    + intros Hge.
      assert (Hcfull : isFull cn (order st1) = true)
        by (rewrite Hord1; by apply Hfull).
      assert (Hleaf : children cn = []).
      { eapply (full_is_leaf (heap st1) c cn (order st1)); [done..|lia|done]. }
      split; [done|].
      destruct (insertNode_split_child e st1 a nd idx c cn)
        as (emid & Hemid & Hsp & Heq); try done.
      { intros Hr. rewrite Hord1. by apply Hnfull, Hroot. }
      { intros E. unfold len in Hge. rewrite E in Hge. simpl in Hge. lia. }
      exists emid. split; [done|]. split; [done|]. split; [done|].
      split; [|done].
      cbn [heap store set_heap].
      apply index_Returned in Hc as [_ Hc'].
      apply local_inv_set_children.
      * by apply local_inv_split.
      * by apply lookup_app_l_Some.
      * intros E. by rewrite E in Hc'.
Qed.

End More.

(** ** The further theorems at concrete trees *)

Open Scope string_scope.

(** The example in the comment on [search]. *)
Lemma search_miss_insertion_point_witness :
  ∃ i, search [E 1 "a"; E 2 "b"; E 4 "d"] 3 = Returned (i, false) ∧ 0 ≤ i ≤ 3 ∧
    (∀ (j : nat) e, [E 1 "a"; E 2 "b"; E 4 "d"] !! j = Some e →
                    Z.of_nat j < i → e_key e < 3) ∧
    (∀ (j : nat) e, [E 1 "a"; E 2 "b"; E 4 "d"] !! j = Some e →
                    i ≤ Z.of_nat j → 3 < e_key e).
Proof.
  apply (search_miss_insertion_point [E 1 "a"; E 2 "b"; E 4 "d"] 3); [reflexivity|].
  intros e He. rewrite !elem_of_cons, elem_of_nil in He.
  destruct He as [->|[->|[->|[]]]]; discriminate.
Defined.

Lemma search_hit_one_past_witness :
  search [E 1 "a"; E 2 "b"; E 4 "d"] 2 = Returned (2, true).
Proof.
  apply (search_hit_one_past [E 1 "a"; E 2 "b"; E 4 "d"] 2 1 (E 2 "b"));
    reflexivity.
Defined.

Lemma canSplit_halves_not_underflowed_witness :
  isUnderflowed (Node None (take 2 (entries leaf_1234)) []) 3 = false ∧
  isUnderflowed (Node None (drop 2 (entries leaf_1234)) []) 3 = false.
Proof.
  apply (canSplit_halves_not_underflowed leaf_1234 3 None []); reflexivity.
Defined.

Lemma odd_order_split_underflows_witness :
  isFull root_123 3 = true ∧ canSplit root_123 3 = false ∧
  isUnderflowed (Node (Some 0%nat) (take 1 (entries root_123)) []) 3 = true.
Proof.
  apply (odd_order_split_underflows root_123 3 (Some 0%nat) []);
    [split; reflexivity | reflexivity | reflexivity].
Defined.

Lemma insertNode_size_accounting_witness :
  ∃ st', insertNode 2 tree_12345 3 (E 0 "z") = Returned (st', true) ∧ size st' = 6.
Proof.
  eexists. split; [reflexivity|].
  apply (insertNode_size_accounting 2 tree_12345 3 (E 0 "z") _ true). reflexivity.
Defined.

Lemma insert_frame_witness :
  ∃ st', insert 2 tree_12345 0 (Some "z") = Returned st' ∧
    is_Some (root st') ∧ order st' = 3 ∧ (4 ≤ length (heap st'))%nat.
Proof.
  eexists. split; [reflexivity|].
  destruct (insert_frame 2 tree_12345 0 (Some "z") _ eq_refl) as (H1 & H2 & H3 & _).
  split; [exact H1|]. split; [exact H2|]. exact H3.
Defined.

Lemma remove_frame_witness :
  ∃ st', remove 2 tree_12345 2 = Returned (st', true) ∧
    order st' = 3 ∧ root st' = Some 3%nat ∧ length (heap st') = 4%nat ∧ size st' = 4.
Proof.
  eexists. split; [reflexivity|].
  destruct (remove_frame 2 tree_12345 2 _ true eq_refl) as (H1 & H2 & H3 & _ & H5).
  split; [exact H1|]. split; [exact H2|]. split; [exact H3|]. by apply H5.
Defined.

(** get(3) on [tree_12345] finds key 3 in the right leaf and returns the
    entry of key 5. *)
Lemma getNode_hit_returns_next_witness :
  getNode 1 tree_12345 2 3 = Returned (Some (E 5 "e"), true).
Proof.
  apply (getNode_hit_returns_next 0 tree_12345 2 leaf_235 3 1 (E 3 "c")); reflexivity.
Defined.

(** Key 0 is below the first key of the left leaf of [tree_12345]; key 9 is
    above the first key of the right leaf. *)
Lemma getNode_leaf_miss_witness :
  getNode 1 tree_12345 1 0 = Panicked IndexOutOfRange ∧
  getNode 1 tree_12345 2 9 = Returned (None, false).
Proof.
  split.
  - apply (getNode_leaf_miss 0 tree_12345 1 leaf_1 0); [reflexivity..|].
    intros e He. apply list_elem_of_singleton in He as ->. discriminate.
  - apply (getNode_leaf_miss 0 tree_12345 2 leaf_235 9); [reflexivity..|].
    intros e He. simpl in He. rewrite !elem_of_cons, elem_of_nil in He.
    destruct He as [->|[->|[->|[]]]]; discriminate.
Defined.

Lemma insert_into_root_leaf_with_room_witness :
  ∃ st' nd', insert 1 tree_12 0 (Some "z") = Returned st' ∧
    heap st' !! 0%nat = Some nd' ∧ size st' = 3 ∧
    ascending (e_key <$> entries nd') = true ∧ E 0 "z" ∈ entries nd'.
Proof.
  destruct (insert_into_root_leaf_with_room 0 tree_12 0 (Node None [E 1 "a"; E 2 "b"] [])
              0 (Some "z"))
    as (st' & nd' & Hin & _ & _ & Hsz & Hnd & _ & _ & Hasc & Hmem & _);
    [reflexivity..| |].
  - intros e He. simpl in He. rewrite !elem_of_cons, elem_of_nil in He.
    destruct He as [->|[->|[]]]; discriminate.
  - exists st', nd'. repeat split; try done. apply Hmem. by left.
Defined.

(** The insert of 4 into [tree_123], whose root leaf is full. *)
Lemma insert_into_full_root_leaf_is_lost_witness :
  ∃ st' nd', insert 1 tree_123 4 (Some "d") = Returned st' ∧
    size st' = 4 ∧ root st' = Some 3%nat ∧
    heap st' !! 0%nat = Some nd' ∧ E 4 "d" ∈ entries nd' ∧ ¬ reachable st' 0 ∧
    (∀ a nda e, reachable st' a → heap st' !! a = Some nda →
                e ∈ entries nda → e_key e ≠ 4).
Proof.
  apply (insert_into_full_root_leaf_is_lost 0 tree_123 0 root_123 4 (Some "d"));
    [reflexivity | reflexivity | reflexivity | discriminate | reflexivity |].
  intros e He. unfold root_123 in He. cbn [entries] in He.
  rewrite !elem_of_cons, elem_of_nil in He.
  destruct He as [->|[->|[->|[]]]]; discriminate.
Defined.

Lemma internal_nodes_are_binary_witness :
  2 ≤ 3 ∧ run 3 (newBtreeOrder 3) ops_12345 = Returned tree_12345 ∧
  ∀ a nd, heap tree_12345 !! a = Some nd → children nd ≠ [] →
    length (entries nd) = 1%nat ∧ length (children nd) = 2%nat ∧
    ∀ c, c ∈ children nd → is_Some (heap tree_12345 !! c).
Proof.
  split; [lia|]. split; [reflexivity|].
  apply (internal_nodes_are_binary 3 3 ops_12345 tree_12345); [lia|reflexivity].
Defined.

Lemma parent_references_are_stale_witness :
  2 ≤ 3 ∧ run 3 (newBtreeOrder 3) ops_12345 = Returned tree_12345 ∧
  ∀ a nd c cn, heap tree_12345 !! a = Some nd → c ∈ children nd →
               heap tree_12345 !! c = Some cn → parent cn ≠ Some a.
Proof.
  split; [lia|]. split; [reflexivity|].
  destruct (parent_references_are_stale 3 3 ops_12345 tree_12345) as [_ H];
    [lia|reflexivity|exact H].
Defined.

Lemma distinct_inserts_keep_nodes_sorted_witness :
  distinct (inserted_keys ops_12345) = true ∧
  all_ascending (heap tree_12345) = true ∧
  ∀ a nd e, heap tree_12345 !! a = Some nd → e ∈ entries nd →
            e_key e ∈ [1; 2; 3; 4; 5].
Proof.
  split; [reflexivity|].
  apply (distinct_inserts_keep_nodes_sorted 3 3 ops_12345 tree_12345);
    [lia|reflexivity|reflexivity].
Defined.

Lemma get_returns_a_larger_key_witness :
  get 2 tree_12345 3 = Returned (Some (E 5 "e"), true) ∧
  ∃ e, Some (E 5 "e") = Some e ∧ 3 < e_key e.
Proof.
  split; [reflexivity|].
  apply (get_returns_a_larger_key 2 tree_12345 3 (Some (E 5 "e"))); reflexivity.
Defined.

Lemma remove_true_keeps_the_key_witness :
  ∃ st' leaf nd' e,
    remove 2 tree_12345 2 = Returned (st', true) ∧
    reachable st' leaf ∧ heap st' !! leaf = Some nd' ∧ children nd' = [] ∧
    e ∈ entries nd' ∧ e_key e = 2.
Proof.
  eexists.
  destruct (remove_true_keeps_the_key 3 3 ops_12345 tree_12345 2 2 _ ltac:(lia)
              eq_refl eq_refl) as (leaf & nd' & e & H).
  exists leaf, nd', e. split; [reflexivity|exact H].
Defined.

Lemma remove_true_cuts_one_leaf_witness :
  ∃ st' leaf nd nd',
    remove 2 tree_12345 2 = Returned (st', true) ∧
    reachable tree_12345 leaf ∧ heap tree_12345 !! leaf = Some nd ∧
    heap st' !! leaf = Some nd' ∧
    len (entries nd') = len (entries nd) - 1 ∧ ceil_half 3 ≤ len (entries nd').
Proof.
  eexists.
  destruct (remove_true_cuts_one_leaf 3 3 ops_12345 tree_12345 2 2 _ ltac:(lia)
              eq_refl eq_refl)
    as (leaf & nd & nd' & H1 & H2 & _ & H4 & _ & _ & H7 & H8 & _).
  exists leaf, nd, nd'. split; [reflexivity|]. by repeat split.
Defined.

(** insert(1, "B") on [tree_12] returns: the entry of key 2 has been
    overwritten, and the root leaf now reads 1, 1. *)
Lemma upsert_overwrites_the_next_entry_witness :
  ∃ st',
    insertNode 1 tree_12 0 (E 1 "B") = Returned (st', false) ∧
    size st' = 2 ∧
    heap st' !! 0%nat = Some (Node None [E 1 "a"; E 1 "B"] []) ∧
    ∃ x nd' (j : nat) e1,
      heap st' !! x = Some nd' ∧ entries nd' !! j = Some e1 ∧ e_key e1 = 1 ∧
      entries nd' !! S j = Some (E 1 "B").
Proof.
  eexists. split; [reflexivity|].
  destruct (upsert_overwrites_the_next_entry 1 tree_12 0 (E 1 "B") _ eq_refl)
    as [Hs H].
  split; [exact Hs|]. split; [reflexivity|exact H].
Defined.

(** C5: five inserts at order 3 all return, and the tree they leave obeys
    the bound.  An insert of 6 into it meets the full leaf [leaf_235] below
    the root, splits it, and goes on at the node [split] returned. *)
Lemma occupancy_at_most_order_witness :
  2 ≤ 3 ∧ run 3 (newBtreeOrder 3) ops_12345 = Returned tree_12345 ∧
  (∀ a nd, reachable tree_12345 a → heap tree_12345 !! a = Some nd →
           len (entries nd) ≤ 3) ∧
  ∀ fuel',
    insertNode (S fuel') tree_12345 3 (E 6 "f") =
      insertNode fuel'
        (store (set_heap tree_12345
                  (heap tree_12345 ++ split_objects 2 leaf_235 (E 3 "c") 4))
           3 (set_children root_2 [1%nat; 6%nat]))
        6 (E 6 "f").
Proof.
  split; [lia|]. split; [reflexivity|].
  destruct (occupancy_at_most_order 3 3 ops_12345 tree_12345)
    as (_ & _ & Hb & Hloc & _ & Hchild); [lia|reflexivity|].
  split; [exact Hb|].
  destruct (Hchild tree_12345 3%nat root_2 1 2%nat leaf_235 (E 6 "f"))
    as [_ Hfull]; [reflexivity|exact Hloc|reflexivity| |reflexivity..|].
  { intros _. vm_compute. reflexivity. }
  destruct Hfull as (_ & emid & Hemid & _ & _ & _ & Heq);
    [vm_compute; discriminate|].
  injection Hemid as <-. exact Heq.
Defined.
